(** * contact-go-server: admission, rate limiting and the session loop

  A shallow embedding of [main.go]: the per-address rate limiter, the
  slot pool bounding concurrent sessions, the dispatcher, the line
  scanner and the session handler, with the properties the specification
  states about them. *)

From Stdlib Require Import ZArith Lia Ascii String.
From stdpp Require Import base decidable option list strings pretty gmap.

Local Open Scope string_scope.
Local Open Scope list_scope.

(** ** Constants ([main.go], lines 17-30) *)

(** Durations and instants are nanosecond counts, as [time.Duration]. *)
Definition millisecond : Z := 1000000.
Definition second : Z := 1000 * millisecond.
Definition minute : Z := 60 * second.

Definition port : string := ":1337".
Definition maxConnections : nat := 100.
Definition maxInputSize : nat := 1024.
Definition connTimeout : Z := 1 * minute.
Definition readTimeout : Z := 30 * second.
Definition rateLimitWindow : Z := 10 * second.
Definition rateLimitMax : nat := 5.
Definition rateLimitCleanup : Z := 1 * minute.

(** ** The rate limiter ([main.go], lines 38-100) *)

Module Limiter.

(** [rateLimiter.connections]: a [sync.Map] from address to
    [*ipRateInfo]; every access to a record happens under its mutex, so
    a record is its timestamp slice. *)
Abbreviation rateLimiter := (gmap string (list Z)).

(** [t.After(u)] *)
Definition After (t u : Z) : Prop := (u < t)%Z.

#[global] Instance After_dec t u : Decision (After t u).
Proof. unfold After. apply _. Defined.

(** The compaction loop of lines 62-68. *)
Definition compact (windowStart : Z) (timestamps : list Z) : list Z :=
  filter (fun t => After t windowStart) timestamps.

(** [LoadOrStore(ip, &ipRateInfo{})] followed by reading the slice. *)
Definition loadOrStore (r : rateLimiter) (ip : string) : list Z :=
  default [] (r !! ip).

Definition checkRateLimit (now : Z) (ip : string) (r : rateLimiter)
  : rateLimiter * bool :=
  let windowStart := (now - rateLimitWindow)%Z in
  let valid := compact windowStart (loadOrStore r ip) in
  if decide (rateLimitMax <= length valid)
  then (<[ip := valid]> r, false)
  else (<[ip := valid ++ [now]]> r, true).

(** [cleanup], lines 81-100: a record none of whose timestamps is after
    the cutoff is deleted (an empty record too). *)
Definition allOld (cutoff : Z) (timestamps : list Z) : Prop :=
  Forall (fun t => ~ After t cutoff) timestamps.

#[global] Instance allOld_dec c ts : Decision (allOld c ts).
Proof. unfold allOld. apply _. Defined.

Definition cleanup (now : Z) (r : rateLimiter) : rateLimiter :=
  let cutoff := (now - rateLimitWindow * 2)%Z in
  filter (fun kv => ~ allOld cutoff kv.2) r.

(** What the limiter sees over its lifetime: checks issued by the accept
    loop and sweeps issued by the ticker goroutine.  A check and a sweep
    are each taken as one step: neither runs in the middle of the
    other. *)
Inductive op :=
| Check (ip : string) (now : Z)
| Sweep (now : Z).


(** One verdict per check, in order. *)
Record verdict := Verdict { v_ip : string; v_time : Z; v_allowed : bool }.

Fixpoint run (ops : list op) (r : rateLimiter) : rateLimiter * list verdict :=
  match ops with
  | [] => (r, [])
  | Check ip now :: ops' =>
      let '(r1, ok) := checkRateLimit now ip r in
      let '(r2, vs) := run ops' r1 in
      (r2, Verdict ip now ok :: vs)
  | Sweep now :: ops' => run ops' (cleanup now r)
  end.

(** The instants of the checks of one address. *)
Fixpoint checksOf (ip : string) (ops : list op) : list Z :=
  match ops with
  | [] => []
  | Check ip' t :: ops' =>
      if decide (ip' = ip) then t :: checksOf ip ops' else checksOf ip ops'
  | Sweep _ :: ops' => checksOf ip ops'
  end.

(** A timestamp that compaction keeps at every instant of [span]. *)
Definition recent (span : list Z) (u : Z) : Prop :=
  Forall (fun t => After u (t - rateLimitWindow)) span.

#[global] Instance recent_dec span u : Decision (recent span u).
Proof. unfold recent. apply _. Defined.

(** Any two instants of [ts] are less than one window apart. *)
Definition withinWindow (ts : list Z) : Prop := Forall (recent ts) ts.

#[global] Instance withinWindow_dec ts : Decision (withinWindow ts).
Proof. unfold withinWindow. apply _. Defined.

(** Consecutive instants more than one window apart. *)
Fixpoint spaced (ts : list Z) : Prop :=
  match ts with
  | t :: ((u :: _) as ts') => (t + rateLimitWindow < u)%Z /\ spaced ts'
  | _ => True
  end.

End Limiter.

(** ** The slot pool and the dispatcher ([main.go], lines 33-36, 199-221) *)

Module Pool.

(** [connSemaphore] is a buffered channel of empty structs: its state is
    the number of buffered elements. *)

(** [select { case connSemaphore <- struct{}{}: ... default: ... }] *)
Definition trySend (len : nat) : option nat :=
  if decide (len < maxConnections) then Some (S len) else None.

(** [<-connSemaphore]; [None] when the receive would block. *)
Definition recv (len : nat) : option nat :=
  match len with
  | O => None
  | S n => Some n
  end.

End Pool.

Definition nl : string := String (ascii_of_nat 10) EmptyString.

Definition rateLimitMsg : string :=
  "Too many connections. Please wait and try again." +:+ nl.
Definition busyMsg : string :=
  "Server is busy. Please try again later." +:+ nl.

(** The shared variables of the process. *)
Record World := mkWorld {
  limiter : gmap string (list Z);
  connSemaphore : nat;
  activeConns : Z
}.

Inductive admission :=
| Rejected (msg : string)  (* message written, connection closed *)
| Acquired.                (* slot taken, the send case of the select runs *)

(** Lines 199-221 up to the choice made by the [select]: the rate check
    comes first and records the attempt, then the non-blocking send. *)
Definition dispatch (ip : string) (now : Z) (w : World) : World * admission :=
  let '(lim, ok) := Limiter.checkRateLimit now ip (limiter w) in
  if negb ok then
    (mkWorld lim (connSemaphore w) (activeConns w), Rejected rateLimitMsg)
  else
    match Pool.trySend (connSemaphore w) with
    | Some n => (mkWorld lim n (activeConns w), Acquired)
    | None => (mkWorld lim (connSemaphore w) (activeConns w), Rejected busyMsg)
    end.

(** ** Line scanning: [bufio.Scanner] with [ScanLines] as the session uses it

    The session reads through [bufio.NewScanner(conn)] after
    [scanner.Buffer(make([]byte, maxInputSize), maxInputSize)].  The
    definitions follow the Go library's [Scan], [ScanLines], [dropCR],
    [advance], [setErr] and [Err]. *)

Module Bufio.

Inductive ioError := EOF | DeadlineExceeded | ConnReset.

Inductive scanError := ErrTooLong | ErrAdvanceTooFar | ErrIO (e : ioError).

#[global] Instance ioError_eq_dec : EqDecision ioError.
Proof. solve_decision. Defined.

#[global] Instance scanError_eq_dec : EqDecision scanError.
Proof. solve_decision. Defined.

(** What [conn.Read] delivers during one connection: the byte chunks in
    their order of arrival, then a final error (end of stream, an expired
    deadline, a reset). *)
Record Conn := mkConn { arriving : list (list ascii); final : ioError }.

Definition LF : ascii := ascii_of_nat 10.
Definition CR : ascii := ascii_of_nat 13.

(** [conn.Read(p)] with [len(p) = room > 0]: at most [room] bytes of
    what has arrived; a read never returns zero bytes without an error.
    The boolean tells that the final error was returned. *)
Fixpoint connRead (room : nat) (cs : list (list ascii))
  : list ascii * list (list ascii) * bool :=
  match cs with
  | [] => ([], [], true)
  | [] :: cs' => connRead room cs'
  | c :: cs' =>
      if decide (length c <= room) then (c, cs', false)
      else (take room c, drop room c :: cs', false)
  end.

Fixpoint indexByte (b : ascii) (data : list ascii) : option nat :=
  match data with
  | [] => None
  | c :: data' =>
      if decide (c = b) then Some 0
      else match indexByte b data' with
           | Some i => Some (S i)
           | None => None
           end
  end.

Definition dropCR (data : list ascii) : list ascii :=
  match reverse data with
  | c :: r => if decide (c = CR) then reverse r else data
  | [] => data
  end.

(** [ScanLines(data, atEOF)]: the advance and the token ([None] is the
    nil token, a request for more data); it never returns an error. *)
Definition ScanLines (data : list ascii) (atEOF : bool)
  : nat * option (list ascii) :=
  if atEOF && bool_decide (length data = 0) then (0, None)
  else match indexByte LF data with
       | Some i => (i + 1, Some (dropCR (take i data)))
       | None => if atEOF then (length data, Some (dropCR data)) else (0, None)
       end.

(** [s.buf[s.start:s.end]] is [data]; [s.end] is [start + length data]
    and [len(s.buf)] is [bufLen]. *)
Record Scanner := mkScanner {
  rd : list (list ascii);
  rdFinal : ioError;
  bufLen : nat;
  maxTokenSize : nat;
  start : nat;
  data : list ascii;
  token : list ascii;
  err : option scanError
}.

Definition end_ (s : Scanner) : nat := start s + length (data s).

(** [bufio.NewScanner(conn)] then [Buffer(make([]byte, size), max)]. *)
Definition NewScanner (c : Conn) (size max : nat) : Scanner :=
  mkScanner (arriving c) (final c) size max 0 [] [] None.

(** [setErr]: the first error that is not [io.EOF] sticks. *)
Definition setErr (e : scanError) (s : Scanner) : Scanner :=
  match err s with
  | None | Some (ErrIO EOF) =>
      mkScanner (rd s) (rdFinal s) (bufLen s) (maxTokenSize s)
                (start s) (data s) (token s) (Some e)
  | Some _ => s
  end.

(** [Err()]: [io.EOF] is reported as no error. *)
Definition Err (s : Scanner) : option scanError :=
  match err s with
  | Some (ErrIO EOF) => None
  | e => e
  end.

Definition Text (s : Scanner) : string := string_of_list_ascii (token s).

Definition maxInt : Z := 2 ^ 63 - 1.
Definition startBufSize : nat := 4096.

(** One pass of the loop of [Scan] either returns or goes round again. *)
Inductive pass :=
| Return (s : Scanner) (ok : bool)
| Again (s : Scanner).

Definition withBuf (s : Scanner) (len st : nat) (d : list ascii) : Scanner :=
  mkScanner (rd s) (rdFinal s) len (maxTokenSize s) st d (token s) (err s).

(** "See if we can get a token with what we already have": the split
    function is called when the buffer holds data or an error is set, and
    [advance] checks what it returns. *)
Definition splitPhase (s : Scanner) : pass :=
  if bool_decide (start s < end_ s) || bool_decide (err s <> None) then
    let '(adv, tok) := ScanLines (data s) (bool_decide (err s <> None)) in
    if decide (length (data s) < adv) then
      Return (setErr ErrAdvanceTooFar s) false
    else
      let s1 := mkScanner (rd s) (rdFinal s) (bufLen s) (maxTokenSize s)
                          (start s + adv) (drop adv (data s))
                          (default [] tok) (err s) in
      match tok with
      | Some _ => Return s1 true
      | None => Again s1
      end
  else Again s.

(** "We cannot generate a token with what we are holding": stop on an
    error; else shift the data to the front, grow a full buffer up to
    [maxTokenSize] or fail with [ErrTooLong], and read once more. *)
Definition readPhase (s : Scanner) : pass :=
  if bool_decide (err s <> None) then Return (withBuf s (bufLen s) 0 []) false
  else
    let s1 :=
      if bool_decide (0 < start s)
         && (bool_decide (end_ s = bufLen s)
             || bool_decide (Nat.div (bufLen s) 2 < start s))
      then withBuf s (bufLen s) 0 (data s)
      else s in
    let grown : Scanner + Scanner :=
      if bool_decide (end_ s1 = bufLen s1) then
        if bool_decide (maxTokenSize s1 <= bufLen s1)
           || bool_decide (maxInt / 2 < Z.of_nat (bufLen s1))%Z
        then inl (setErr ErrTooLong s1)
        else
          let doubled := bufLen s1 * 2 in
          let newSize :=
            Nat.min (if decide (doubled = 0) then startBufSize else doubled)
                    (maxTokenSize s1) in
          inr (withBuf s1 newSize 0 (data s1))
      else inr s1 in
    match grown with
    | inl s2 => Return s2 false
    | inr s2 =>
        let '(bytes, rest, failed) := connRead (bufLen s2 - end_ s2) (rd s2) in
        let s3 := mkScanner rest (rdFinal s2) (bufLen s2) (maxTokenSize s2)
                            (start s2) (data s2 ++ bytes) (token s2) (err s2) in
        Again (if failed : bool then setErr (ErrIO (rdFinal s2)) s3 else s3)
    end.

Fixpoint scanLoop (fuel : nat) (s : Scanner) : option (Scanner * bool) :=
  match fuel with
  | O => None
  | S fuel' =>
      match splitPhase s with
      | Return s' ok => Some (s', ok)
      | Again s1 =>
          match readPhase s1 with
          | Return s' ok => Some (s', ok)
          | Again s2 => scanLoop fuel' s2
          end
      end
  end.

(** Bytes the connection has still to deliver. *)
Definition unread (s : Scanner) : nat := length (concat (rd s)).

(** [Scan()]: every pass that does not return takes bytes from the
    connection or meets its final error, so [unread s + 2] passes are
    enough (lemma [Scan_total] below). *)
Definition Scan (s : Scanner) : option (Scanner * bool) :=
  scanLoop (unread s + 2) s.

(** Input not yet turned into tokens, as bytes. *)
Definition pending (s : Scanner) : list ascii := data s ++ concat (rd s).

(** The scanner as the session configures it, between two calls of
    [Scan]: the buffer holds [size] bytes and cannot grow; either no read
    has failed yet, or one has and nothing is left to scan. *)
Definition ready (size : nat) (s : Scanner) : Prop :=
  bufLen s = size /\ maxTokenSize s <= size /\ 0 < size
  /\ start s + length (data s) <= size
  /\ (err s = None
      \/ (err s = Some (ErrIO (rdFinal s)) /\ data s = [] /\ rd s = [])).

(** What a call of [Scan] must return on a scanner of buffer size [size]
    with [p] pending and final error [e]: the first line when its newline
    is among the first [size] bytes; [ErrTooLong] when [size] bytes hold
    no newline; at the end of the input, the rest as a last line, or the
    final error when nothing is left. *)
Definition scanned (size : nat) (p : list ascii) (e : ioError)
    (res : option (Scanner * bool)) : Prop :=
  match indexByte LF (take size p) with
  | Some i =>
      exists s', res = Some (s', true) /\ token s' = dropCR (take i p)
                 /\ pending s' = drop (S i) p /\ ready size s' /\ err s' = None
                 /\ rdFinal s' = e
  | None =>
      if decide (size <= length p) then
        exists s', res = Some (s', false) /\ Err s' = Some ErrTooLong
      else if decide (p = []) then
        exists s', res = Some (s', false) /\ err s' = Some (ErrIO e)
      else
        exists s', res = Some (s', true) /\ token s' = dropCR p
                   /\ pending s' = [] /\ ready size s'
                   /\ err s' = Some (ErrIO e) /\ rdFinal s' = e
  end.

End Bufio.

(** ** [fmt.Sscanf(input, "%d", &num)]

    The path [Sscanf] takes for the single verb [%d] and an [*int]
    operand: [doScanf] skips leading space, [scanInt] accepts one sign and
    a run of decimal digits, [strconv.ParseInt] converts it.  What follows
    the digits is left unread and is no error. *)

Module Fmt.

Local Open Scope Z_scope.

Definition byteVal (c : ascii) : Z := Z.of_nat (nat_of_ascii c).

Definition RuneError : Z := 0xFFFD.

Definition between (lo hi b : Z) : bool := (lo <=? b) && (b <=? hi).

(** The table [first] of package [utf8]: for a leading byte, the length of
    the sequence and the range accepted for the second byte. *)
Definition leadInfo (b0 : Z) : option (nat * Z * Z) :=
  if between 0xC2 0xDF b0 then Some (2%nat, 0x80, 0xBF)
  else if b0 =? 0xE0 then Some (3%nat, 0xA0, 0xBF)
  else if between 0xE1 0xEC b0 then Some (3%nat, 0x80, 0xBF)
  else if b0 =? 0xED then Some (3%nat, 0x80, 0x9F)
  else if between 0xEE 0xEF b0 then Some (3%nat, 0x80, 0xBF)
  else if b0 =? 0xF0 then Some (4%nat, 0x90, 0xBF)
  else if between 0xF1 0xF3 b0 then Some (4%nat, 0x80, 0xBF)
  else if b0 =? 0xF4 then Some (4%nat, 0x80, 0x8F)
  else None.

Definition cont (b : Z) : Z := Z.land b 0x3F.

(** [utf8.DecodeRune]: the rune and its width; [None] on empty input. *)
Definition decodeRune (p : list ascii) : option (Z * nat) :=
  match p with
  | [] => None
  | c0 :: p1 =>
      let b0 := byteVal c0 in
      if b0 <? 0x80 then Some (b0, 1%nat)
      else
        match leadInfo b0 with
        | None => Some (RuneError, 1%nat)
        | Some (sz, lo, hi) =>
            if bool_decide (length p < sz)%nat then Some (RuneError, 1%nat)
            else
              match map byteVal p1 with
              | b1 :: bs =>
                  if negb (between lo hi b1) then Some (RuneError, 1%nat)
                  else if bool_decide (sz <= 2)%nat then
                    Some (Z.lor (Z.shiftl (Z.land b0 0x1F) 6) (cont b1), 2%nat)
                  else
                    match bs with
                    | b2 :: bs' =>
                        if negb (between 0x80 0xBF b2) then Some (RuneError, 1%nat)
                        else if bool_decide (sz <= 3)%nat then
                          Some (Z.lor (Z.shiftl (Z.land b0 0x0F) 12)
                                  (Z.lor (Z.shiftl (cont b1) 6) (cont b2)), 3%nat)
                        else
                          match bs' with
                          | b3 :: _ =>
                              if negb (between 0x80 0xBF b3)
                              then Some (RuneError, 1%nat)
                              else
                                Some (Z.lor (Z.shiftl (Z.land b0 0x07) 18)
                                        (Z.lor (Z.shiftl (cont b1) 12)
                                           (Z.lor (Z.shiftl (cont b2) 6) (cont b3))),
                                      4%nat)
                          | [] => Some (RuneError, 1%nat)
                          end
                    | [] => Some (RuneError, 1%nat)
                    end
              | [] => Some (RuneError, 1%nat)
              end
        end
  end.

(** The table [space] of package [fmt]. *)
Definition space : list (Z * Z) :=
  [ (0x0009, 0x000d); (0x0020, 0x0020); (0x0085, 0x0085); (0x00a0, 0x00a0);
    (0x1680, 0x1680); (0x2000, 0x200a); (0x2028, 0x2029); (0x202f, 0x202f);
    (0x205f, 0x205f); (0x3000, 0x3000) ].

Definition isSpace (r : Z) : bool :=
  if 0x10000 <=? r then false
  else existsb (fun rng => between (fst rng) (snd rng) r) space.

(** [SkipSpace] in the mode of [Sscanf] ([nlIsSpace] is false): a newline
    is an error ([None]); other space runes are dropped.  [pending] counts
    the bytes of a space rune still to drop. *)
Fixpoint SkipSpace (pending : nat) (inp : list ascii) : option (list ascii) :=
  match inp with
  | [] => Some []
  | _ :: rest =>
      match pending with
      | S k => SkipSpace k rest
      | O =>
          match decodeRune inp with
          | Some (r, sz) =>
              if r =? 10 then None
              else if isSpace r then SkipSpace (sz - 1) rest
              else Some inp
          | None => Some inp
          end
      end
  end.

Definition isDigit (c : ascii) : bool := between 48 57 (byteVal c).

(** [for s.accept(digits) {}] with the decimal digits: these are one-byte
    runes. *)
Fixpoint acceptDigits (inp : list ascii) : list ascii * list ascii :=
  match inp with
  | c :: rest =>
      if isDigit c then
        let '(ds, rest') := acceptDigits rest in (c :: ds, rest')
      else ([], inp)
  | [] => ([], [])
  end.

Definition digitsValue (ds : list ascii) : Z :=
  fold_left (fun acc c => acc * 10 + (byteVal c - 48)) ds 0.

(** [strconv.ParseInt(tok, 10, 64)] on a sign and a non-empty digit run:
    a value outside [int64] is a range error. *)
Definition ParseInt (neg : bool) (ds : list ascii) : option Z :=
  let un := digitsValue ds in
  let cutoff := 2 ^ 63 in
  if negb neg && (cutoff <=? un) then None
  else if neg && (cutoff <? un) then None
  else Some (if neg then - un else un).

(** [s.accept(sign)] *)
Definition acceptSign (inp : list ascii) : bool * list ascii :=
  match inp with
  | c :: rest =>
      if byteVal c =? 43 then (false, rest)
      else if byteVal c =? 45 then (true, rest)
      else (false, inp)
  | [] => (false, [])
  end.

(** [Sscanf(input, "%d", &num)]: [Some num] when [err == nil]. *)
Definition Sscanf_d (input : string) : option Z :=
  match SkipSpace 0 (list_ascii_of_string input) with
  | None => None
  | Some inp =>
      match SkipSpace 0 inp with
      | None | Some [] => None
      | Some inp1 =>
          let '(neg, inp2) := acceptSign inp1 in
          match acceptDigits inp2 with
          | ([], _) => None
          | (ds, _) => ParseInt neg ds
          end
      end
  end.

(** The one-byte space characters other than the newline: tab, vertical
    tab, form feed, carriage return and the blank. *)
Definition isAsciiSpace (c : ascii) : bool :=
  existsb (Z.eqb (byteVal c)) [9; 11; 12; 13; 32].

End Fmt.

(** ** The session handler ([main.go], lines 111-136 and 225-284) *)

Module Session.

Record contact := mkContact { Num : Z; Name : string; URL : string }.

Definition contacts : list contact :=
  [ mkContact 1 "Twitter/X" "x.com/hitto_kun";
    mkContact 2 "GitHub" "github.com/hitto-hub";
    mkContact 3 "Zenn" "zenn.dev/hitto";
    mkContact 4 "Qiita" "qiita.com/hitto";
    mkContact 5 "Blog" "hitto-kun.hatenablog.com" ].

Definition rule : string := "━━━━━━━━━━━━━━━━━━━━━━━━━━━━━━━━━━━━━━".

Definition backslash : string := String (ascii_of_nat 92) EmptyString.

Definition unlines (ls : list string) : string :=
  fold_right (fun l acc => l +:+ nl +:+ acc) "" ls.

Definition banner : string :=
  unlines
    [ "";
      " _     _ _   _";
      "| |__ (_) |_| |_ ___";
      "| '_ \| | __| __/ _ " +:+ backslash;
      "| | | | | |_| || (_) |";
      "|_| |_|_|\__|\__\___/";
      "";
      rule;
      "  Welcome to hitto's contact server";
      rule;
      "";
      "  Available endpoints:";
      "" ].

(** [%d] of a contact number. *)
Definition showNum (n : Z) : string := pretty n.

(** [%-10s]: padded on the right with spaces to ten characters. *)
Definition padRight (width : nat) (s : string) : string :=
  s +:+ string_of_list_ascii (replicate (width - String.length s) " "%char).

Definition menuLine (c : contact) : string :=
  "  [" +:+ showNum (Num c) +:+ "] " +:+ padRight 10 (Name c)
  +:+ " → " +:+ URL c +:+ nl.

Definition prompt : string := "> Select [1-5] or 'q' to quit: ".
Definition invalidMsg : string := "Invalid input. Select [1-5] or 'q' to quit: ".
Definition farewellMsg : string := nl +:+ "Connection closed. See you! 👋" +:+ nl.
Definition tooLargeMsg : string := nl +:+ "Input too large. Connection closed." +:+ nl.

Definition openingMsg (c : contact) : string :=
  nl +:+ "→ Opening " +:+ Name c +:+ ": https://" +:+ URL c +:+ nl +:+ nl.

(** Lines 236-245: what is written before the first read. *)
Definition greeting : list string :=
  banner :: map menuLine contacts ++ [nl +:+ rule +:+ nl +:+ nl; prompt].

(** The effect of one input line on the loop of lines 251-283. *)
Inductive reaction :=
| Quit (out : list string)     (* write, then [return] *)
| Continue (out : list string) (* write, then the next pass of the loop *)
| Panic.                       (* an index out of range at [contacts[num-1]] *)

Definition respond (input : string) : reaction :=
  if bool_decide (input = "q") || bool_decide (input = "quit")
     || bool_decide (input = "exit")
  then Quit [farewellMsg]
  else
    match Fmt.Sscanf_d input with
    | Some num =>
        if (1 <=? num)%Z && (num <=? Z.of_nat (length contacts))%Z then
          match contacts !! Z.to_nat (num - 1) with
          | Some c => Continue [openingMsg c; prompt]
          | None => Panic
          end
        else Continue [invalidMsg]
    | None => Continue [invalidMsg]
    end.

(** What a session goroutine does to the connection and to the shared
    variables, in program order. *)
Inductive effect :=
| Write (s : string)  (* [fmt.Fprint(conn, s)] *)
| CloseConn           (* [conn.Close()] *)
| Release             (* [<-connSemaphore] *)
| Decrement.          (* [atomic.AddInt64(&activeConns, -1)] *)

#[global] Instance effect_eq_dec : EqDecision effect.
Proof. solve_decision. Defined.

(** The [return] statement the loop leaves through. *)
Inductive exit :=
| ByQuit
| ByTooLong
| ByReadFailure (e : option Bufio.scanError)
| ByPanic.

(** The loop of lines 251-283.  The deadlines of lines 234 and 253 decide
    when a read fails; that failure is the final error of the
    connection. *)
Fixpoint sessionLoop (fuel : nat) (s : Bufio.Scanner)
  : option (list string * exit) :=
  match fuel with
  | O => None
  | S fuel' =>
      match Bufio.Scan s with
      | None => None
      | Some (s', false) =>
          match Bufio.Err s' with
          | Some Bufio.ErrTooLong => Some ([tooLargeMsg], ByTooLong)
          | e => Some ([], ByReadFailure e)
          end
      | Some (s', true) =>
          match respond (Bufio.Text s') with
          | Quit out => Some (out, ByQuit)
          | Continue out =>
              match sessionLoop fuel' s' with
              | Some (more, ex) => Some (out ++ more, ex)
              | None => None
              end
          | Panic => Some ([], ByPanic)
          end
      end
  end.

(** Input not yet turned into tokens: buffered or still to arrive. *)
Definition pendingInput (s : Bufio.Scanner) : nat :=
  length (Bufio.data s) + Bufio.unread s.

(** The deferred function of lines 226-231 runs when the body returns. *)
Definition deferred : list effect := [CloseConn; Release; Decrement].

(** [handleConnection(conn)]: every successful scan consumes input, so
    [pendingInput + 1] passes of the loop are enough (lemma
    [handleConnection_total]). *)
Definition handleConnection (c : Bufio.Conn) : option (list effect * exit) :=
  let s := Bufio.NewScanner c maxInputSize maxInputSize in
  match sessionLoop (pendingInput s + 1) s with
  | Some (out, ex) => Some (map Write (greeting ++ out) ++ deferred, ex)
  | None => None
  end.

(** One effect on the shared variables; [None] when it would block. *)
Definition perform (e : effect) (w : World) : option World :=
  match e with
  | Write _ | CloseConn => Some w
  | Release =>
      match Pool.recv (connSemaphore w) with
      | Some n => Some (mkWorld (limiter w) n (activeConns w))
      | None => None
      end
  | Decrement =>
      Some (mkWorld (limiter w) (connSemaphore w) (activeConns w - 1)%Z)
  end.

Fixpoint performAll (tr : list effect) (w : World) : option World :=
  match tr with
  | [] => Some w
  | e :: tr' =>
      match perform e w with
      | Some w' => performAll tr' w'
      | None => None
      end
  end.

End Session.

(** ** The process: accept loop, signal handler, sweeper and sessions
    ([main.go], lines 138-223)

    The goroutines interleave; a step is one access to the shared
    variables by one of them.  The sweeper may tick at any moment before
    the process exits. *)

Module Server.

Import Session.

(** Where the main goroutine is. *)
Inductive mainPc :=
| AcceptLoop            (* at [listener.Accept()] *)
| SlotTaken             (* the send case was chosen, line 211 *)
| Counted               (* [activeConns] incremented, line 213 *)
| Draining (i : nat)    (* in the loop of lines 185-190 *)
| Exited.               (* [main] returned: the process is gone *)

(** Where the goroutine of lines 170-175 is. *)
Inductive sigPc :=
| Waiting               (* at [<-sigChan] *)
| ListenerClosed        (* after [listener.Close()] *)
| Cancelled.            (* after [cancel()] *)

#[global] Instance mainPc_eq_dec : EqDecision mainPc.
Proof. solve_decision. Defined.

#[global] Instance sigPc_eq_dec : EqDecision sigPc.
Proof. solve_decision. Defined.

Record System := mkSystem {
  world : World;
  listening : bool;               (* the listener is open *)
  sigPending : bool;              (* [sigChan] holds a signal *)
  ctxDone : bool;                 (* [ctx] is cancelled *)
  mainAt : mainPc;
  sigAt : sigPc;
  sessions : list (list effect)   (* what each session has still to do *)
}.

Definition init : System :=
  mkSystem (mkWorld ∅ 0 0) true false false AcceptLoop Waiting [].

Definition setMain (s : System) (w : World) (pc : mainPc) : System :=
  mkSystem w (listening s) (sigPending s) (ctxDone s) pc (sigAt s) (sessions s).

Definition setWorld (s : System) (w : World) (ss : list (list effect)) : System :=
  mkSystem w (listening s) (sigPending s) (ctxDone s) (mainAt s) (sigAt s) ss.

Inductive label :=
| Signal                                       (* SIGINT or SIGTERM arrives *)
| CloseListener                                (* lines 171-173 *)
| Cancel                                       (* line 174 *)
| AcceptError                                  (* lines 179-196 *)
| Reject (ip : string) (now : Z) (msg : string)  (* lines 202-207, 216-220 *)
| Acquire (ip : string) (now : Z)              (* line 211 *)
| Count                                        (* line 213 *)
| Spawn (c : Bufio.Conn)                       (* line 215 *)
| Sleep                                        (* line 189 *)
| Exit                                         (* lines 191-192 *)
| SessionStep (i : nat) (e : effect)
| Tick (now : Z).                              (* line 164 *)

(** The number of passes of the shutdown loop, each followed by a sleep
    of 100 ms. *)
Definition drainPasses : nat := 100.

(** One pass of [for i := 0; i < 100; i++] at lines 185-190, and the
    return that follows the loop. *)
Definition drain (i : nat) (active : Z) : label * mainPc :=
  if bool_decide (i < drainPasses) then
    if bool_decide (active = 0%Z) then (Exit, Exited)
    else (Sleep, Draining (S i))
  else (Exit, Exited).

Definition countUp (w : World) : World :=
  mkWorld (limiter w) (connSemaphore w) (activeConns w + 1)%Z.

Definition sweep (now : Z) (w : World) : World :=
  mkWorld (Limiter.cleanup now (limiter w)) (connSemaphore w) (activeConns w).

Inductive step : System -> label -> System -> Prop :=
| step_signal s :
    mainAt s <> Exited ->
    step s Signal
      (mkSystem (world s) (listening s) true (ctxDone s)
                (mainAt s) (sigAt s) (sessions s))
| step_close s :
    mainAt s <> Exited -> sigAt s = Waiting -> sigPending s = true ->
    step s CloseListener
      (mkSystem (world s) false false (ctxDone s)
                (mainAt s) ListenerClosed (sessions s))
| step_cancel s :
    mainAt s <> Exited -> sigAt s = ListenerClosed ->
    step s Cancel
      (mkSystem (world s) (listening s) (sigPending s) true
                (mainAt s) Cancelled (sessions s))
| step_accept_error s :
    mainAt s = AcceptLoop ->
    step s AcceptError
      (setMain s (world s) (if ctxDone s then Draining 0 else AcceptLoop))
| step_reject s ip now w msg :
    mainAt s = AcceptLoop -> listening s = true ->
    dispatch ip now (world s) = (w, Rejected msg) ->
    step s (Reject ip now msg) (setMain s w AcceptLoop)
| step_acquire s ip now w :
    mainAt s = AcceptLoop -> listening s = true ->
    dispatch ip now (world s) = (w, Acquired) ->
    step s (Acquire ip now) (setMain s w SlotTaken)
| step_count s :
    mainAt s = SlotTaken ->
    step s Count (setMain s (countUp (world s)) Counted)
| step_spawn s c tr ex :
    mainAt s = Counted ->
    handleConnection c = Some (tr, ex) ->
    step s (Spawn c)
      (mkSystem (world s) (listening s) (sigPending s) (ctxDone s)
                AcceptLoop (sigAt s) (sessions s ++ [tr]))
| step_drain s i :
    mainAt s = Draining i ->
    step s (drain i (activeConns (world s))).1
      (setMain s (world s) (drain i (activeConns (world s))).2)
| step_session s i e tr w :
    mainAt s <> Exited ->
    sessions s !! i = Some (e :: tr) ->
    perform e (world s) = Some w ->
    step s (SessionStep i e) (setWorld s w (<[i := tr]> (sessions s)))
| step_tick s now :
    mainAt s <> Exited ->
    step s (Tick now) (setWorld s (sweep now (world s)) (sessions s)).

(** Executions: the labels of the steps taken, oldest first. *)
Inductive exec : System -> list label -> System -> Prop :=
| exec_nil s : exec s [] s
| exec_snoc s ls s' l s'' :
    exec s ls s' -> step s' l s'' -> exec s (ls ++ [l]) s''.

Definition reachable (s : System) : Prop := exists ls, exec init ls s.


(** A session is active from its start until it has given its slot
    back; its connection is open until [conn.Close()]. *)
Definition active (tr : list effect) : Prop := Release ∈ tr.

Definition activeSessions (s : System) : nat :=
  length (filter active (sessions s)).

(** The slot held by the main goroutine between the send and the [go]. *)
Definition inHand (pc : mainPc) : nat :=
  match pc with
  | SlotTaken | Counted => 1
  | _ => 0
  end.

(** What is left of a session's effects: some writes, then a suffix of
    the deferred function. *)
Fixpoint remainder (tr : list effect) : Prop :=
  match tr with
  | Write _ :: tr' => remainder tr'
  | _ => tr = deferred \/ tr = [Release; Decrement] \/ tr = [Decrement] \/ tr = []
  end.

(** The pool accounts for every slot: the channel holds one element for
    the slot in the main goroutine's hand and one for each active
    session, and never more than its capacity. *)
Definition accounted (s : System) : Prop :=
  connSemaphore (world s) = inHand (mainAt s) + activeSessions s
  /\ connSemaphore (world s) <= maxConnections
  /\ Forall remainder (sessions s).

(** A session counts in [activeConns] until its decrement; so does the
    connection the main goroutine has counted and not yet handed over. *)
Definition unfinished (tr : list effect) : Prop := Decrement ∈ tr.

Definition inCount (pc : mainPc) : nat :=
  match pc with
  | Counted => 1
  | _ => 0
  end.

Definition tallied (s : System) : Prop :=
  activeConns (world s)
  = Z.of_nat (inCount (mainAt s) + length (filter unfinished (sessions s))).

(** The sleeps of the shutdown loop in an execution. *)
Definition isSleep (l : label) : bool :=
  match l with
  | Sleep => true
  | _ => false
  end.

Definition sleeps (ls : list label) : nat :=
  length (filter (fun l => isSleep l = true) ls).

End Server.

(** ** Runs of the limiter: what is counted and compared below *)

Module Runs.

Import Limiter.


(** The operations that touch the record of [ip]: its own checks and
    every sweep. *)
Definition concerns (ip : string) (o : op) : Prop :=
  match o with
  | Check ip' _ => ip' = ip
  | Sweep _ => True
  end.

#[global] Instance concerns_dec ip o : Decision (concerns ip o).
Proof. destruct o; simpl; apply _. Defined.

Definition isCheck (o : op) : Prop :=
  match o with
  | Check _ _ => True
  | Sweep _ => False
  end.

#[global] Instance isCheck_dec o : Decision (isCheck o).
Proof. destruct o; simpl; apply _. Defined.


End Runs.

(** ** The rate-limit key: [extractIP] ([main.go], lines 102-109)

    [addr.String()] is the argument; [net.SplitHostPort] follows the Go
    library. *)

Module Net.

Definition colon : ascii := ":"%char.
Definition lbracket : ascii := "["%char.
Definition rbracket : ascii := "]"%char.

(** [bytealg.LastIndexByteString] *)
Fixpoint lastIndexByte (b : ascii) (s : list ascii) : option nat :=
  match s with
  | [] => None
  | c :: s' =>
      match lastIndexByte b s' with
      | Some i => Some (S i)
      | None => if decide (c = b) then Some 0 else None
      end
  end.

Definition has (b : ascii) (s : list ascii) : bool :=
  bool_decide (Bufio.indexByte b s <> None).

(** [net.SplitHostPort]: [None] is an [AddrError]. *)
Definition SplitHostPort (hostport : list ascii)
  : option (list ascii * list ascii) :=
  match lastIndexByte colon hostport with
  | None => None                            (* missing port *)
  | Some i =>
      let parsed : option (list ascii * nat * nat) :=
        if bool_decide (head hostport = Some lbracket) then
          match Bufio.indexByte rbracket hostport with
          | None => None                    (* missing ']' *)
          | Some end_ =>
              if decide (end_ + 1 = length hostport) then None
              else if decide (end_ + 1 = i) then
                Some (take (end_ - 1) (drop 1 hostport), 1, end_ + 1)
              else None                     (* too many colons or no port *)
          end
        else
          let host := take i hostport in
          if has colon host then None       (* too many colons *)
          else Some (host, 0, 0) in
      match parsed with
      | None => None
      | Some (host, j, k) =>
          if has lbracket (drop j hostport) then None
          else if has rbracket (drop k hostport) then None
          else Some (host, drop (i + 1) hostport)
      end
  end.

Definition extractIP (addr : string) : string :=
  match SplitHostPort (list_ascii_of_string addr) with
  | Some (host, _) => string_of_list_ascii host
  | None => addr
  end.

End Net.

(** ** What a session answers, read off the bytes it receives

    A second description of the loop of [handleConnection], on the byte
    stream alone: cut the next line at the first newline within
    [maxInputSize] bytes, answer it, go on with the rest.  The handler is
    compared with it below. *)

Module Stream.

Import Bufio Session.

Definition lineText (line : list ascii) : string :=
  string_of_list_ascii (dropCR line).

Definition readFailure (e : ioError) : exit :=
  ByReadFailure (match e with EOF => None | _ => Some (ErrIO e) end).

Fixpoint answers (fuel : nat) (p : list ascii) (e : ioError)
  : list string * exit :=
  match fuel with
  | O => ([], readFailure e)
  | S fuel' =>
      match indexByte LF (take maxInputSize p) with
      | Some i =>
          match respond (lineText (take i p)) with
          | Quit out => (out, ByQuit)
          | Continue out =>
              let '(more, ex) := answers fuel' (drop (S i) p) e in
              (out ++ more, ex)
          | Panic => ([], ByPanic)
          end
      | None =>
          if decide (maxInputSize <= length p) then ([tooLargeMsg], ByTooLong)
          else if decide (p = []) then ([], readFailure e)
          else
            match respond (lineText p) with
            | Quit out => (out, ByQuit)
            | Continue out => (out, readFailure e)
            | Panic => ([], ByPanic)
            end
      end
  end.

(** The whole session on the bytes [p] followed by the error [e]. *)
Definition session (p : list ascii) (e : ioError) : list string * exit :=
  answers (length p + 1) p e.

(** The answers to a line that keep the session going. *)
Definition isReply (m : string) : Prop :=
  m = invalidMsg \/ m = prompt \/ exists c, c ∈ contacts /\ m = openingMsg c.

(** The message a way out of the loop ends the session with. *)
Definition closing (ex : exit) : list string :=
  match ex with
  | ByQuit => [farewellMsg]
  | ByTooLong => [tooLargeMsg]
  | _ => []
  end.

(** Lines on the wire, each followed by its newline. *)
Definition wire (lines : list (list ascii)) : list ascii :=
  concat (map (fun l => l ++ [LF]) lines).

(** The answers line by line, up to the first quit word. *)
Fixpoint dialogue (lines : list (list ascii)) (e : ioError)
  : list string * exit :=
  match lines with
  | [] => ([], readFailure e)
  | l :: lines' =>
      match respond (lineText l) with
      | Quit out => (out, ByQuit)
      | Continue out =>
          let '(more, ex) := dialogue lines' e in (out ++ more, ex)
      | Panic => ([], ByPanic)
      end
  end.

End Stream.

(** ** Counting the sessions started in an execution *)

Module Trace.

Import Server.

Definition isSpawn (l : label) : bool :=
  match l with
  | Spawn _ => true
  | _ => false
  end.

Definition spawns (ls : list label) : nat :=
  length (filter (fun l => isSpawn l = true) ls).

Definition isAcquire (l : label) : bool :=
  match l with
  | Acquire _ _ => true
  | _ => false
  end.

Definition acquisitions (ls : list label) : nat :=
  length (filter (fun l => isAcquire l = true) ls).

End Trace.

(** * Properties *)

(** ** The rate limiter *)

Section LimiterFacts.

Import Limiter.

Implicit Types (r : rateLimiter) (ip : string) (now t : Z) (ts : list Z).


Lemma elem_of_compact ws ts t : t ∈ compact ws ts <-> (ws < t)%Z /\ t ∈ ts.
Proof. unfold compact. rewrite list_elem_of_filter. reflexivity. Qed.

Lemma check_allowed_iff now ip r :
  (checkRateLimit now ip r).2 = true <->
  length (compact (now - rateLimitWindow) (loadOrStore r ip)) < rateLimitMax.
Proof.
  unfold checkRateLimit. cbv zeta. case_decide; simpl; split; intros; try done; lia.
Qed.

Lemma check_record_same now ip r :
  loadOrStore (checkRateLimit now ip r).1 ip =
  compact (now - rateLimitWindow) (loadOrStore r ip)
  ++ (if (checkRateLimit now ip r).2 then [now] else []).
Proof.
  unfold checkRateLimit. cbv zeta. case_decide; simpl;
    unfold loadOrStore at 1; rewrite lookup_insert_eq; simpl.
  - by rewrite app_nil_r.
  - done.
Qed.

Lemma check_record_other now ip ip' r :
  ip <> ip' -> loadOrStore (checkRateLimit now ip r).1 ip' = loadOrStore r ip'.
Proof.
  intros Hne. unfold checkRateLimit. cbv zeta.
  case_decide; simpl; unfold loadOrStore; by rewrite lookup_insert_ne.
Qed.

Lemma cleanup_record now ip r :
  loadOrStore (cleanup now r) ip =
  if decide (allOld (now - rateLimitWindow * 2) (loadOrStore r ip))
  then [] else loadOrStore r ip.
Proof.
  unfold cleanup, loadOrStore. cbv zeta.
  rewrite map_lookup_filter. destruct (r !! ip) as [l|] eqn:E; simpl.
  - destruct (decide (allOld (now - rateLimitWindow * 2) l)) as [Ho|Ho].
    + rewrite option_guard_False; [done | tauto].
    + by rewrite option_guard_True.
  - by repeat case_match.
Qed.

Lemma withinWindow_spec ts :
  withinWindow ts <->
  forall t u, t ∈ ts -> u ∈ ts -> (t - u < rateLimitWindow)%Z.
Proof.
  unfold withinWindow, recent, After. rewrite Forall_forall. split.
  - intros H t u Ht Hu. specialize (H u Hu). rewrite Forall_forall in H.
    specialize (H t Ht). lia.
  - intros H u Hu. rewrite Forall_forall. intros t Ht.
    specialize (H t u Ht Hu). lia.
Qed.







(** C5, as the code has it.  Compaction keeps exactly the timestamps
    strictly later than [now - rateLimitWindow]: one equal to the window
    start is dropped.  A check is refused exactly when the number of
    timestamps kept is at least [rateLimitMax]. *)
Theorem window_boundary_exclusive now ip r ts :
  (forall t, t ∈ compact (now - rateLimitWindow) ts
             <-> t ∈ ts /\ (now - rateLimitWindow < t)%Z)
  /\ ((now - rateLimitWindow)%Z ∉ compact (now - rateLimitWindow) ts)
  /\ ((checkRateLimit now ip r).2 = false
      <-> rateLimitMax
          <= length (compact (now - rateLimitWindow) (loadOrStore r ip))).
Proof.
  split; [|split].
  - intros t. rewrite elem_of_compact. tauto.
  - rewrite elem_of_compact. lia.
  - pose proof (check_allowed_iff now ip r) as [H1 H2].
    destruct (checkRateLimit now ip r).2; split; intros Hx; try done.
    + specialize (H1 eq_refl). lia.
    + apply Nat.le_ngt. intros Hlt. by specialize (H2 Hlt).
Qed.


(** C5 as stated fails: at [now = 10 s] a timestamp [0], equal to the
    window start, is not kept; with five such timestamps on record the
    check is allowed, where an inclusive window would refuse it. *)
Lemma boundary_timestamp_dropped :
  (10 * second - rateLimitWindow)%Z ∈ [0%Z]
  /\ ((10 * second - rateLimitWindow)%Z
      ∉ compact (10 * second - rateLimitWindow) [0%Z])
  /\ (checkRateLimit (10 * second) "192.0.2.1"
        {[ "192.0.2.1" := [0; 0; 0; 0; 0]%Z ]}).2 = true.
Proof.
  split; [|split].
  - vm_compute. by left.
  - rewrite elem_of_compact. vm_compute. intros [H _]. discriminate H.
  - vm_compute. reflexivity.
Qed.

Lemma compact_all_old b ws ts :
  Forall (fun u => (u <= b)%Z) ts -> (b <= ws)%Z -> compact ws ts = [].
Proof.
  intros Hall Hb. unfold compact. induction Hall as [|u ts Hu _ IH]; [done|].
  rewrite filter_cons_False; [done|]. unfold After. lia.
Qed.

(** Spaced checks, from a record that holds nothing later than [b]: each
    check of [ip] finds the record empty after compaction. *)
Lemma run_spaced ip ops : forall r b,
  Forall (fun u => (u <= b)%Z) (loadOrStore r ip) ->
  length (loadOrStore r ip) <= 1 ->
  spaced (b :: checksOf ip ops) ->
  Forall (fun v => v_ip v = ip -> v_allowed v = true) (run ops r).2
  /\ length (loadOrStore (run ops r).1 ip) <= 1.
Proof.
  induction ops as [|[ip' now|now] ops IH]; intros r b Hold Hlen Hsp; simpl.
  - by split.
  - destruct (checkRateLimit now ip' r) as [r1 ok] eqn:Echk.
    destruct (run ops r1) as [r2 vs] eqn:Erun. simpl.
    pose proof (check_record_same now ip' r) as Hsame.
    pose proof (check_allowed_iff now ip' r) as Hallow.
    rewrite Echk in Hsame, Hallow. simpl in Hsame, Hallow.
    simpl in Hsp. case_decide as Hip.
    + subst ip'. destruct Hsp as [Hgap Hsp].
      rewrite (compact_all_old b) in Hsame, Hallow by (done || lia).
      assert (ok = true) as -> by (apply Hallow; simpl; unfold rateLimitMax; lia).
      simpl in Hsame.
      destruct (IH r1 now) as [Hvs Hfin].
      { rewrite Hsame. by repeat constructor. }
      { by rewrite Hsame. }
      { done. }
      rewrite Erun in Hvs, Hfin. simpl in *. split; [|done].
      constructor; [done|done].
    + pose proof (check_record_other now ip' ip r Hip) as Hother.
      rewrite Echk in Hother. simpl in Hother.
      destruct (IH r1 b) as [Hvs Hfin]; [by rewrite Hother..|done|].
      rewrite Erun in Hvs, Hfin. simpl in *. split; [|done].
      constructor; [simpl; done|done].
  - apply (IH _ b); [| |done]; rewrite cleanup_record; case_decide; simpl;
      (done || lia || constructor).
Qed.

(** C7. Starting with no record for the address, checks of that address
    that follow one another more than [rateLimitWindow] apart all return
    true, whatever sweeps and checks of other addresses come between:
    compaction empties the record before the count is compared, so the
    record never holds more than the latest attempt. *)
Theorem spaced_attempts_allowed ops r ip :
  loadOrStore r ip = [] ->
  spaced (checksOf ip ops) ->
  Forall (fun v => v_ip v = ip -> v_allowed v = true) (run ops r).2
  /\ length (loadOrStore (run ops r).1 ip) <= 1.
Proof.
  intros Hfresh Hsp.
  apply (run_spaced ip ops r
           (match checksOf ip ops with
            | t :: _ => t - rateLimitWindow - 1
            | [] => 0
            end)%Z).
  - rewrite Hfresh. constructor.
  - rewrite Hfresh. simpl. lia.
  - destruct (checksOf ip ops) as [|t ts]; [done|]. split; [lia|done].
Qed.

Lemma spaced_attempts_allowed_witness :
  let ops := [Check "203.0.113.9" 0; Check "198.51.100.4" 1;
              Check "203.0.113.9" (10 * second + 1);
              Sweep (15 * second);
              Check "203.0.113.9" (20 * second + 2);
              Check "203.0.113.9" (31 * second);
              Check "203.0.113.9" (42 * second);
              Check "203.0.113.9" (53 * second)] in
  Forall (fun v => v_ip v = "203.0.113.9" -> v_allowed v = true) (run ops ∅).2
  /\ length (loadOrStore (run ops ∅).1 "203.0.113.9") <= 1.
Proof.
  intros ops. apply (spaced_attempts_allowed ops ∅ "203.0.113.9").
  - reflexivity.
  - vm_compute. repeat split.
Defined.


(** C9. A connection turned away for capacity has already been counted
    by the limiter: its instant is the newest entry of the record of its
    address, no slot was taken, and every check of that address less than
    one window later still finds that entry after compaction, one more
    than it would find otherwise. *)
Theorem busy_attempt_recorded ip now w w' :
  dispatch ip now w = (w', Rejected busyMsg) ->
  loadOrStore (limiter w') ip
  = compact (now - rateLimitWindow) (loadOrStore (limiter w) ip) ++ [now]
  /\ connSemaphore w' = connSemaphore w
  /\ forall later, (later - rateLimitWindow < now)%Z ->
       now ∈ compact (later - rateLimitWindow) (loadOrStore (limiter w') ip)
       /\ length (compact (later - rateLimitWindow) (loadOrStore (limiter w') ip))
          = S (length (compact (later - rateLimitWindow)
                         (compact (now - rateLimitWindow)
                            (loadOrStore (limiter w) ip)))).
Proof.
  unfold dispatch. intros Hadm.
  pose proof (check_record_same now ip (limiter w)) as Hsame.
  destruct (checkRateLimit now ip (limiter w)) as [lim ok]. simpl in Hsame.
  destruct ok; simpl in Hadm.
  - destruct (Pool.trySend (connSemaphore w)); [done|].
    injection Hadm as <-. simpl. rewrite Hsame. split; [done|]. split; [done|].
    intros later Hlater. split.
    + apply elem_of_compact. split; [done|]. apply elem_of_app. right. by left.
    + unfold compact at 1. rewrite filter_app, length_app.
      rewrite filter_cons_True by done. simpl. unfold compact at 2. lia.
  - exfalso. injection Hadm as _ Hmsg. vm_compute in Hmsg. discriminate Hmsg.
Qed.

Lemma busy_attempt_recorded_witness :
  let w := mkWorld ∅ maxConnections 0 in
  let w' := (dispatch "203.0.113.9" (5 * second) w).1 in
  loadOrStore (limiter w') "203.0.113.9"
  = compact (5 * second - rateLimitWindow) (loadOrStore (limiter w) "203.0.113.9")
    ++ [(5 * second)%Z].
Proof.
  intros w w'.
  refine (proj1 (busy_attempt_recorded "203.0.113.9" (5 * second) w w' _)).
  vm_compute. reflexivity.
Defined.


End LimiterFacts.

(** ** The line scanner *)

Section BufioFacts.

Import Bufio.

Implicit Types (s : Scanner) (d p : list ascii).

Lemma connRead_spec room cs bytes rest failed :
  0 < room ->
  connRead room cs = (bytes, rest, failed) ->
  (failed = false /\ bytes <> [] /\ length bytes <= room
   /\ bytes ++ concat rest = concat cs)
  \/ (failed = true /\ bytes = [] /\ rest = [] /\ concat cs = []).
Proof.
  intros Hroom. induction cs as [|c cs IH]; simpl; intros Hrd.
  - right. by inversion Hrd.
  - destruct c as [|a c]; [by apply IH|].
    case_decide as Hfit; inversion Hrd; subst; clear Hrd; left.
    + done.
    + split; [done|]. split; [by destruct room; [lia|]|].
      split; [rewrite length_take; lia|].
      simpl concat. by rewrite (app_assoc (take room (a :: c))), take_drop.
Qed.

Lemma indexByte_Some b d i :
  indexByte b d = Some i -> i < length d /\ d !! i = Some b /\ b ∉ take i d.
Proof.
  revert i. induction d as [|c d IH]; simpl; intros i Hi; [done|].
  case_decide as Hc.
  - inversion Hi; subst. split; [lia|]. split; [reflexivity|].
    simpl. apply not_elem_of_nil.
  - destruct (indexByte b d) as [j|]; [|done]. inversion Hi; subst.
    destruct (IH j eq_refl) as (Hlt & Hat & Hnot).
    split; [lia|]. split; [exact Hat|].
    simpl. apply not_elem_of_cons. by split.
Qed.

Lemma indexByte_None b d : indexByte b d = None <-> b ∉ d.
Proof.
  induction d as [|c d IH]; simpl.
  - split; [intros _; apply not_elem_of_nil|done].
  - rewrite not_elem_of_cons. case_decide as Hc.
    + split; [done|]. intros [Hne _]. by subst.
    + destruct (indexByte b d) as [n|].
      * split; [done|]. intros [_ H]. by apply IH in H.
      * split; [|done]. intros _. split; [done|]. by apply IH.
Qed.

Lemma indexByte_app_l b d d' i :
  indexByte b d = Some i -> indexByte b (d ++ d') = Some i.
Proof.
  revert i. induction d as [|c d IH]; simpl; intros i Hi; [done|].
  case_decide; [done|].
  destruct (indexByte b d) as [j|]; [|done]. by rewrite (IH j eq_refl).
Qed.

Lemma indexByte_first b line rest :
  b ∉ line -> indexByte b (line ++ b :: rest) = Some (length line).
Proof.
  induction line as [|c line IH]; simpl; intros Hnot.
  - by rewrite decide_True.
  - apply not_elem_of_cons in Hnot as [Hne Hnot].
    rewrite decide_False by done. by rewrite IH.
Qed.

Lemma splitPhase_token s i :
  indexByte LF (data s) = Some i ->
  splitPhase s
  = Return (mkScanner (rd s) (rdFinal s) (bufLen s) (maxTokenSize s)
                      (start s + (i + 1)) (drop (i + 1) (data s))
                      (dropCR (take i (data s))) (err s)) true.
Proof.
  intros Hi. destruct (indexByte_Some _ _ _ Hi) as (Hlt & _ & _).
  unfold splitPhase, ScanLines, end_. rewrite Hi.
  rewrite (bool_decide_eq_true_2 (start s < start s + length (data s))) by lia.
  rewrite (bool_decide_eq_false_2 (length (data s) = 0)) by lia.
  rewrite andb_false_r. simpl. rewrite decide_False by lia. done.
Qed.

Lemma splitPhase_more s :
  indexByte LF (data s) = None -> err s = None ->
  exists tok,
    splitPhase s
    = Again (mkScanner (rd s) (rdFinal s) (bufLen s) (maxTokenSize s)
                       (start s) (data s) tok None).
Proof.
  intros Hi He. destruct s as [r f bl mx st d tk e]. simpl in *. subst e.
  unfold splitPhase, ScanLines, end_. simpl. rewrite Hi.
  rewrite orb_false_r. case_bool_decide as Hd.
  - rewrite decide_False by lia. rewrite Nat.add_0_r. simpl. by eexists.
  - by eexists.
Qed.

Lemma splitPhase_final s e :
  indexByte LF (data s) = None -> err s = Some e ->
  if decide (data s = [])
  then exists tok,
         splitPhase s
         = Again (mkScanner (rd s) (rdFinal s) (bufLen s) (maxTokenSize s)
                            (start s) [] tok (Some e))
  else splitPhase s
       = Return (mkScanner (rd s) (rdFinal s) (bufLen s) (maxTokenSize s)
                           (start s + length (data s)) []
                           (dropCR (data s)) (Some e)) true.
Proof.
  intros Hi He. destruct s as [r f bl mx st d tk e']. simpl in *. subst e'.
  unfold splitPhase, ScanLines, end_. simpl. rewrite Hi.
  rewrite orb_true_r. simpl. case_decide as Hd.
  - subst d. simpl. rewrite Nat.add_0_r. by eexists.
  - rewrite (bool_decide_eq_false_2 (length d = 0)) by (by destruct d).
    rewrite decide_False by lia. simpl. by rewrite drop_all.
Qed.

Lemma readPhase_error s e :
  err s = Some e -> readPhase s = Return (withBuf s (bufLen s) 0 []) false.
Proof.
  intros He. unfold readPhase. rewrite He.
  by rewrite (bool_decide_eq_true_2 (Some e <> None)).
Qed.

Lemma readPhase_full s :
  err s = None -> maxTokenSize s <= bufLen s ->
  start s + length (data s) <= bufLen s -> length (data s) = bufLen s ->
  0 < bufLen s ->
  exists s', readPhase s = Return s' false /\ err s' = Some ErrTooLong.
Proof.
  intros He Hmax Hwf Hfull Hpos.
  destruct s as [r f bl mx st d tk e]. simpl in *. subst e.
  assert (st = 0) as -> by lia.
  unfold readPhase, end_. simpl.
  rewrite (bool_decide_eq_true_2 (length d = bl)) by done.
  rewrite (bool_decide_eq_true_2 (mx <= bl)) by done. simpl.
  eexists. split; [done|done].
Qed.

Lemma readPhase_read s :
  err s = None -> start s + length (data s) <= bufLen s ->
  length (data s) < bufLen s ->
  exists st bytes rest failed,
    st + length (data s) < bufLen s
    /\ connRead (bufLen s - (st + length (data s))) (rd s) = (bytes, rest, failed)
    /\ readPhase s
       = Again (mkScanner rest (rdFinal s) (bufLen s) (maxTokenSize s) st
                          (data s ++ bytes) (token s)
                          (if failed then Some (ErrIO (rdFinal s)) else None)).
Proof.
  intros He Hwf Hroom.
  destruct s as [r f bl mx st d tk e]. simpl in *. subst e.
  unfold readPhase, end_. cbn -[Nat.div].
  destruct (bool_decide (0 < st)
            && (bool_decide (st + length d = bl)
                || bool_decide (Nat.div bl 2 < st))) eqn:Hshift; cbn -[Nat.div].
  - rewrite (bool_decide_eq_false_2 (length d = bl)) by lia.
    unfold end_. simpl.
    destruct (connRead (bl - length d) r) as [[bytes rest] failed] eqn:Hrd.
    exists 0, bytes, rest, failed. simpl. split; [done|]. split; [done|].
    by destruct failed.
  - assert (st + length d <> bl) as Hne.
    { intros Heq. apply andb_false_iff in Hshift as [H|H].
      - apply bool_decide_eq_false_1 in H. lia.
      - apply orb_false_iff in H as [H _].
        by apply bool_decide_eq_false_1 in H. }
    rewrite (bool_decide_eq_false_2 (st + length d = bl)) by done.
    unfold end_. simpl.
    destruct (connRead (bl - (st + length d)) r) as [[bytes rest] failed] eqn:Hrd.
    exists st, bytes, rest, failed. split; [lia|]. split; [done|].
    by destruct failed.
Qed.


(** After a failed read, with nothing buffered: [Scan] returns false. *)
Lemma scanLoop_done fuel s e :
  err s = Some e -> data s = [] ->
  exists s', scanLoop (S fuel) s = Some (s', false)
             /\ err s' = Some e /\ data s' = [] /\ rd s' = rd s
             /\ rdFinal s' = rdFinal s /\ bufLen s' = bufLen s
             /\ maxTokenSize s' = maxTokenSize s /\ start s' = 0.
Proof.
  intros He Hd.
  pose proof (splitPhase_final s e) as Hsp. rewrite Hd in Hsp.
  specialize (Hsp eq_refl He). rewrite decide_True in Hsp by done.
  destruct Hsp as [tok Hsp]. simpl. rewrite Hsp.
  erewrite readPhase_error by done. eexists. split; [done|]. simpl. done.
Qed.

(** After a failed read, with an unfinished line buffered: it is the
    last token. *)
Lemma scanLoop_last fuel s e :
  err s = Some e -> indexByte LF (data s) = None -> data s <> [] ->
  scanLoop (S fuel) s
  = Some (mkScanner (rd s) (rdFinal s) (bufLen s) (maxTokenSize s)
                    (start s + length (data s)) [] (dropCR (data s)) (Some e),
          true).
Proof.
  intros He Hi Hd. pose proof (splitPhase_final s e Hi He) as Hsp.
  rewrite decide_False in Hsp by done. simpl. by rewrite Hsp.
Qed.

Lemma scanLoop_spec size : forall fuel s,
  bufLen s = size -> maxTokenSize s <= size -> 0 < size ->
  start s + length (data s) <= size -> err s = None ->
  unread s + 2 <= fuel ->
  scanned size (pending s) (rdFinal s) (scanLoop fuel s).
Proof.
  induction fuel as [|fuel IH]; intros s Hbl Hmx Hpos Hwf He Hfuel; [lia|].
  unfold scanned, pending.
  destruct (indexByte LF (data s)) as [i|] eqn:Hi.
  - destruct (indexByte_Some _ _ _ Hi) as (Hlt & _ & _).
    rewrite take_app_ge by lia.
    rewrite (indexByte_app_l _ _ _ _ Hi).
    simpl. rewrite (splitPhase_token s i Hi).
    eexists. split; [done|]. simpl.
    split; [by rewrite take_app_le by lia|].
    split. { unfold pending. simpl. rewrite drop_app_le by lia.
             by replace (i + 1) with (S i) by lia. }
    split; [|done].
    unfold ready. simpl. rewrite length_drop.
    split; [done|]. split; [done|]. split; [done|]. split; [lia|by left].
  - destruct (splitPhase_more s Hi He) as [tok Hsp].
    simpl. rewrite Hsp. clear Hsp.
    set (s1 := mkScanner _ _ _ _ _ _ tok None).
    destruct (decide (length (data s) = size)) as [Hfull|Hroom].
    + destruct (readPhase_full s1) as (s' & Hrd & Herr); simpl; try done; try lia.
      rewrite Hrd. rewrite take_app_le by lia. rewrite take_ge by lia.
      rewrite Hi. rewrite decide_True by (rewrite length_app; lia).
      exists s'. split; [done|]. unfold Err. by rewrite Herr.
    + destruct (readPhase_read s1) as (st & bytes & rest & failed & Hst & Hcr & Hrd);
        simpl; try done; try lia.
      simpl in Hst, Hcr, Hrd. rewrite Hrd. clear Hrd.
      apply connRead_spec in Hcr; [|lia].
      destruct Hcr as [(-> & Hne & Hlen & Hcat)|(-> & -> & -> & Hcat)].
      * set (s3 := mkScanner rest _ _ _ st _ tok None).
        assert (Hun : unread s3 < unread s).
        { unfold unread. simpl. rewrite <- Hcat, length_app.
          destruct bytes; [done|simpl; lia]. }
        specialize (IH s3). unfold scanned, pending in IH. simpl in IH.
        rewrite <- app_assoc, Hcat in IH.
        apply IH; try done; try lia. rewrite length_app. lia.
      * rewrite Hcat, !app_nil_r. rewrite take_ge by lia. rewrite Hi.
        rewrite decide_False by lia.
        destruct fuel as [|fuel]; [lia|].
        set (s3 := mkScanner [] _ _ _ st _ tok _).
        case_decide as Hd.
        -- destruct (scanLoop_done fuel s3 (ErrIO (rdFinal s)))
             as (s' & Hs' & Herr & _); [done|done|].
           exists s'. by split.
        -- rewrite (scanLoop_last fuel s3 (ErrIO (rdFinal s)));
             [|done|done|done].
           eexists. split; [done|]. simpl.
           split; [done|]. split; [done|]. split; [|done].
           unfold ready. simpl. split; [done|]. split; [done|].
           split; [done|]. split; [lia|]. right. done.
Qed.

(** [Scan] on a scanner as the session configures it. *)
Lemma Scan_spec size s :
  ready size s -> err s = None ->
  scanned size (pending s) (rdFinal s) (Scan s).
Proof.
  intros (Hbl & Hmx & Hpos & Hwf & _) He.
  by apply scanLoop_spec.
Qed.

Lemma Scan_done size s :
  ready size s -> err s <> None ->
  exists s', Scan s = Some (s', false) /\ err s' = Some (ErrIO (rdFinal s)).
Proof.
  intros (Hbl & Hmx & Hpos & Hwf & [He|(He & Hd & Hr)]) Hne; [done|].
  unfold Scan. replace (unread s + 2) with (S (unread s + 1)) by lia.
  destruct (scanLoop_done (unread s + 1) s _ He Hd) as (s' & Hs' & Herr & _).
  by exists s'.
Qed.


Lemma pendingInput_length s : Session.pendingInput s = length (pending s).
Proof. unfold Session.pendingInput, pending, unread. by rewrite length_app. Qed.

Lemma NewScanner_ready c :
  ready maxInputSize (NewScanner c maxInputSize maxInputSize)
  /\ err (NewScanner c maxInputSize maxInputSize) = None
  /\ pending (NewScanner c maxInputSize maxInputSize) = concat (arriving c).
Proof.
  unfold ready, NewScanner, pending, maxInputSize. simpl.
  repeat split; try lia. by left.
Qed.

Lemma Scan_total size s : ready size s -> is_Some (Scan s).
Proof.
  intros Hr. destruct (err s) as [e|] eqn:He.
  - destruct (Scan_done size s Hr) as (s' & -> & _); [by rewrite He|done].
  - pose proof (Scan_spec size s Hr He) as Hsp. unfold scanned in Hsp.
    destruct (indexByte LF (take size (pending s))); [|repeat case_decide];
      destruct Hsp as (s' & -> & _); done.
Qed.

End BufioFacts.

(** ** The session handler *)

Section SessionFacts.

Import Bufio Session.

(** The loop returns on every input: each line scanned uses up pending
    input. *)
Lemma sessionLoop_total : forall fuel s,
  ready maxInputSize s -> pendingInput s + 1 <= fuel ->
  exists out ex, sessionLoop fuel s = Some (out, ex).
Proof.
  induction fuel as [|fuel IH]; intros s Hr Hfuel; [lia|].
  rewrite pendingInput_length in Hfuel. simpl.
  assert (Hnext : forall s', ready maxInputSize s' ->
            length (pending s') < length (pending s) ->
            exists out ex,
              match respond (Text s') with
              | Quit out => Some (out, ByQuit)
              | Continue out =>
                  match sessionLoop fuel s' with
                  | Some (more, ex) => Some (out ++ more, ex)
                  | None => None
                  end
              | Panic => Some ([], ByPanic)
              end = Some (out, ex)).
  { intros s' Hr' Hlt. destruct (respond (Text s')); [by eauto| |by eauto].
    destruct (IH s' Hr') as (more & ex & ->); [rewrite pendingInput_length; lia|].
    by eauto. }
  destruct (err s) as [e|] eqn:He.
  - destruct (Scan_done _ s Hr) as (s' & -> & Herr); [by rewrite He|].
    unfold Err. rewrite Herr. destruct (rdFinal s); by eauto.
  - pose proof (Scan_spec _ s Hr He) as Hsp. unfold scanned in Hsp.
    destruct (indexByte LF (take maxInputSize (pending s))) as [i|] eqn:Hi.
    + destruct Hsp as (s' & -> & _ & Hp & Hr' & _).
      apply Hnext; [done|]. rewrite Hp, length_drop.
      apply indexByte_Some in Hi as (Hlt & _). rewrite length_take in Hlt. lia.
    + repeat case_decide.
      * destruct Hsp as (s' & -> & ->). by eauto.
      * destruct Hsp as (s' & -> & Herr). unfold Err. rewrite Herr.
        destruct (rdFinal s); by eauto.
      * destruct Hsp as (s' & -> & _ & Hp & Hr' & _).
        apply Hnext; [done|]. rewrite Hp. simpl.
        destruct (pending s); [done|simpl; lia].
Qed.

Lemma handleConnection_total c :
  exists body ex,
    handleConnection c = Some (map Write (greeting ++ body) ++ deferred, ex).
Proof.
  unfold handleConnection.
  destruct (NewScanner_ready c) as (Hr & _).
  destruct (sessionLoop_total _ _ Hr (Nat.le_refl _)) as (out & ex & ->).
  by eauto.
Qed.







(** One byte less is accepted: the line is answered as invalid input and
    the session goes on to the next line. *)
Example line_below_maxInputSize_accepted :
  handleConnection
    (mkConn [replicate (maxInputSize - 1) "A"%char ++ [LF; "q"%char; LF]] EOF)
  = Some (map Write (greeting ++ [invalidMsg; farewellMsg])
          ++ [CloseConn; Release; Decrement], ByQuit).
Proof. by vm_compute. Qed.

(** The four ways out of the loop. *)
Example exit_paths :
  snd <$> handleConnection (mkConn [["q"%char; LF]] EOF) = Some ByQuit
  /\ snd <$> handleConnection (mkConn [["1"%char; LF]] DeadlineExceeded)
     = Some (ByReadFailure (Some (ErrIO DeadlineExceeded)))
  /\ snd <$> handleConnection (mkConn [replicate 2000 "A"%char] EOF)
     = Some ByTooLong
  /\ snd <$> handleConnection (mkConn [["1"%char]] ConnReset)
     = Some (ByReadFailure (Some (ErrIO ConnReset)))
  /\ snd <$> handleConnection (mkConn [] EOF) = Some (ByReadFailure None).
Proof. repeat split; by vm_compute. Qed.


End SessionFacts.

(** ** The process *)

Section ServerFacts.

Import Session Server.

Implicit Types (s : System) (tr : list effect) (w : World).

Lemma dispatch_rejected ip now w w' msg :
  dispatch ip now w = (w', Rejected msg) ->
  connSemaphore w' = connSemaphore w /\ activeConns w' = activeConns w
  /\ ((msg = rateLimitMsg
       /\ (Limiter.checkRateLimit now ip (limiter w)).2 = false)
      \/ (msg = busyMsg
          /\ (Limiter.checkRateLimit now ip (limiter w)).2 = true
          /\ maxConnections <= connSemaphore w)).
Proof.
  unfold dispatch, Pool.trySend.
  destruct (Limiter.checkRateLimit now ip (limiter w)) as [lim [|]]; simpl.
  - case_decide; [done|]. intros [= <- <-]. simpl.
    split; [done|]. split; [done|]. right. split; [done|]. split; [done|lia].
  - intros [= <- <-]. simpl. split; [done|]. split; [done|]. by left.
Qed.

Lemma dispatch_acquired ip now w w' :
  dispatch ip now w = (w', Acquired) ->
  connSemaphore w' = S (connSemaphore w) /\ connSemaphore w < maxConnections
  /\ activeConns w' = activeConns w
  /\ (Limiter.checkRateLimit now ip (limiter w)).2 = true.
Proof.
  unfold dispatch, Pool.trySend.
  destruct (Limiter.checkRateLimit now ip (limiter w)) as [lim [|]]; simpl;
    [|done].
  case_decide; [|done]. by intros [= <-].
Qed.

Lemma remainder_tail e tr : remainder (e :: tr) -> remainder tr.
Proof.
  destruct e; simpl; [done|..]; intros [H|[H|[H|H]]]; inversion H; subst;
    simpl; tauto.
Qed.

Lemma remainder_step e tr :
  remainder (e :: tr) ->
  if decide (e = Release) then active (e :: tr) /\ ~ active tr
  else (active (e :: tr) <-> active tr).
Proof.
  unfold active. intros Hrem. case_decide as He.
  - subst e. split; [by left|].
    destruct Hrem as [H|[H|[H|H]]]; inversion H; subst.
    intros Hin. apply list_elem_of_singleton in Hin. done.
  - rewrite elem_of_cons. split; [|by right]. intros [Heq|Hin]; [|done].
    by subst.
Qed.


Lemma remainder_fresh body :
  remainder (map Write body ++ deferred) /\ active (map Write body ++ deferred).
Proof.
  unfold active. induction body as [|b body [IH1 IH2]]; simpl.
  - split; [by left|]. right. by left.
  - split; [done|by right].
Qed.

Lemma count_insert_same {A} (P : A -> Prop) `{!forall x, Decision (P x)}
    (l : list A) i x y :
  l !! i = Some x -> (P x <-> P y) ->
  length (filter P (<[i := y]> l)) = length (filter P l).
Proof.
  revert i. induction l as [|a l IH]; intros [|i] Hi Hiff; simpl in *; try done.
  - injection Hi as ->. rewrite !filter_cons.
    destruct (decide (P x)), (decide (P y)); simpl; tauto || done.
  - rewrite !(filter_cons _ a). destruct (decide (P a)); simpl; by erewrite IH.
Qed.

Lemma count_insert_drop {A} (P : A -> Prop) `{!forall x, Decision (P x)}
    (l : list A) i x y :
  l !! i = Some x -> P x -> ~ P y ->
  S (length (filter P (<[i := y]> l))) = length (filter P l).
Proof.
  revert i. induction l as [|a l IH]; intros [|i] Hi Hx Hy; simpl in *; try done.
  - injection Hi as ->. rewrite (filter_cons_True P x) by done.
    by rewrite (filter_cons_False P y) by done.
  - rewrite !(filter_cons _ a). destruct (decide (P a)); simpl; by erewrite IH.
Qed.

Lemma handleConnection_shape c tr ex :
  handleConnection c = Some (tr, ex) ->
  exists body, tr = map Write body ++ deferred.
Proof.
  destruct (handleConnection_total c) as (body & ex' & ->).
  intros Heq. exists (greeting ++ body). congruence.
Qed.

Lemma perform_semaphore e w w' :
  perform e w = Some w' ->
  connSemaphore w = (if decide (e = Release) then 1 else 0) + connSemaphore w'.
Proof.
  destruct e; simpl; try (by intros [= <-]).
  destruct (connSemaphore w) as [|n]; simpl; [done|]. by intros [= <-].
Qed.

Lemma step_accounted s l s' : step s l s' -> accounted s -> accounted s'.
Proof.
  intros Hstep (Hsem & Hcap & Hrem).
  destruct Hstep as [s Hrun|s Hrun Hsig Hpend|s Hrun Hsig|s Hmain
                    |s ip now w msg Hmain Hlis Hadm|s ip now w Hmain Hlis Hadm
                    |s Hmain|s c tr ex Hmain Hhc|s i Hmain
                    |s i e tr w Hrun Hi Hperf|s now Hrun];
    unfold accounted, activeSessions in *; simpl in *.
  - done.
  - done.
  - done.
  - rewrite Hmain in Hsem. by destruct (ctxDone s).
  - apply dispatch_rejected in Hadm as (Hs & _). rewrite Hs.
    by rewrite Hmain in Hsem.
  - apply dispatch_acquired in Hadm as (Hs & Hlt & _). rewrite Hs.
    rewrite Hmain in Hsem. simpl in *. split; [lia|]. split; [lia|done].
  - by rewrite Hmain in Hsem.
  - apply handleConnection_shape in Hhc as [body ->].
    destruct (remainder_fresh body) as [Hr Ha].
    rewrite filter_app, length_app, (filter_cons_True _ _ _ Ha).
    rewrite Hmain in Hsem. simpl in *. split; [lia|]. split; [done|].
    apply Forall_app. split; [done|]. by repeat constructor.
  - rewrite Hmain in Hsem. unfold drain. by repeat case_bool_decide.
  - pose proof (Forall_lookup_1 _ _ _ _ Hrem Hi) as Hre.
    pose proof (remainder_step e tr Hre) as Hst.
    pose proof (perform_semaphore e _ _ Hperf) as Hps.
    split; [|split].
    + case_decide as He.
      * destruct Hst as [Ha Hna].
        pose proof (count_insert_drop active (sessions s) i _ tr Hi Ha Hna).
        lia.
      * rewrite (count_insert_same active (sessions s) i _ tr Hi Hst). lia.
    + lia.
    + apply Forall_insert; [done|]. by eapply remainder_tail.
  - done.
Qed.

Lemma exec_accounted s ls s' : exec s ls s' -> accounted s -> accounted s'.
Proof. induction 1; eauto using step_accounted. Qed.

Lemma init_accounted : accounted init.
Proof.
  unfold accounted, init, activeSessions, maxConnections. simpl.
  split; [done|]. split; [lia|constructor].
Qed.

Lemma reachable_accounted s : reachable s -> accounted s.
Proof. intros [ls Hex]. eauto using exec_accounted, init_accounted. Qed.


Lemma remainder_step_count e tr :
  remainder (e :: tr) ->
  if decide (e = Decrement) then unfinished (e :: tr) /\ ~ unfinished tr
  else (unfinished (e :: tr) <-> unfinished tr).
Proof.
  unfold unfinished. intros Hrem. case_decide as He.
  - subst e. split; [by left|].
    destruct Hrem as [H|[H|[H|H]]]; inversion H; subst. apply not_elem_of_nil.
  - rewrite elem_of_cons. split; [|by right]. intros [Heq|Hin]; [|done].
    by subst.
Qed.

Lemma perform_count e w w' :
  perform e w = Some w' ->
  activeConns w' = (activeConns w - (if decide (e = Decrement) then 1 else 0))%Z.
Proof.
  destruct e; simpl; try (intros [= <-]; simpl; lia).
  destruct (Pool.recv (connSemaphore w)); [|done]. intros [= <-]. simpl. lia.
Qed.

Lemma step_tallied s l s' :
  step s l s' -> Forall remainder (sessions s) -> tallied s -> tallied s'.
Proof.
  intros Hstep Hrem Htal.
  destruct Hstep as [s Hrun|s Hrun Hsig Hpend|s Hrun Hsig|s Hmain
                    |s ip now w msg Hmain Hlis Hadm|s ip now w Hmain Hlis Hadm
                    |s Hmain|s c tr ex Hmain Hhc|s i Hmain
                    |s i e tr w Hrun Hi Hperf|s now Hrun];
    unfold tallied in *; simpl in *.
  - done.
  - done.
  - done.
  - rewrite Hmain in Htal. by destruct (ctxDone s).
  - apply dispatch_rejected in Hadm as (_ & Ha & _). rewrite Ha.
    by rewrite Hmain in Htal.
  - apply dispatch_acquired in Hadm as (_ & _ & Ha & _). rewrite Ha.
    by rewrite Hmain in Htal.
  - rewrite Hmain in Htal. simpl in *. lia.
  - apply handleConnection_shape in Hhc as [body ->].
    assert (Hu : unfinished (map Write body ++ deferred)).
    { unfold unfinished, deferred. rewrite elem_of_app. right.
      rewrite !elem_of_cons. tauto. }
    rewrite filter_app, length_app, (filter_cons_True _ _ _ Hu).
    rewrite Hmain in Htal. simpl in *. lia.
  - rewrite Hmain in Htal. unfold drain. by repeat case_bool_decide.
  - pose proof (Forall_lookup_1 _ _ _ _ Hrem Hi) as Hre.
    pose proof (remainder_step_count e tr Hre) as Hst.
    rewrite (perform_count e _ _ Hperf). case_decide as He.
    + destruct Hst as [Ha Hna].
      pose proof (count_insert_drop unfinished (sessions s) i _ tr Hi Ha Hna).
      lia.
    + rewrite (count_insert_same unfinished (sessions s) i _ tr Hi Hst). lia.
  - done.
Qed.

Lemma reachable_tallied s : reachable s -> tallied s.
Proof.
  intros [ls Hex].
  enough (accounted s /\ tallied s) by tauto.
  remember init as s0 eqn:Hs0.
  induction Hex as [s|s ls s' l s'' Hex IH Hstep].
  - subst. split; [apply init_accounted|reflexivity].
  - destruct (IH Hs0) as [Hacc Htal]. split; [by eapply step_accounted|].
    eapply step_tallied; [done| |done]. apply Hacc.
Qed.





Lemma performAll_writes body tr w :
  performAll (map Write body ++ tr) w = performAll tr w.
Proof. induction body as [|b body IH]; simpl; done. Qed.

(** C3. Whatever the connection delivers, once a slot is acquired and
    counted the handler returns, and its effects end with the deferred
    function: one close, one receive from the semaphore, one decrement of
    the counter; performed on the shared variables they bring the
    semaphore and the counter back to their values before the
    acquisition.  In every reachable state of the interleaved process the
    semaphore holds exactly the slots of the active sessions and of the
    main goroutine, the counter exactly the sessions not yet decremented,
    and a session that comes to its release finds a slot to give back and
    has only its decrement left. *)
Theorem session_releases_once c ip now w w1 s :
  dispatch ip now w = (w1, Acquired) ->
  reachable s ->
  (exists body ex w2,
      handleConnection c
      = Some (map Write body ++ [CloseConn; Release; Decrement], ex)
      /\ performAll (map Write body ++ [CloseConn; Release; Decrement])
                    (countUp w1) = Some w2
      /\ connSemaphore w2 = connSemaphore w
      /\ activeConns w2 = activeConns w)
  /\ connSemaphore (world s) = inHand (mainAt s) + activeSessions s
  /\ activeConns (world s)
     = Z.of_nat (inCount (mainAt s) + length (filter unfinished (sessions s)))
  /\ (forall i tr,
        sessions s !! i = Some (Release :: tr) -> mainAt s <> Exited ->
        tr = [Decrement]
        /\ exists w',
             perform Release (world s) = Some w'
             /\ step s (SessionStep i Release)
                  (setWorld s w' (<[i := tr]> (sessions s)))).
Proof.
  intros Hadm Hreach.
  destruct (reachable_accounted s Hreach) as (Hsem & Hcap & Hrem).
  split; [|split; [done|split; [by apply reachable_tallied|]]].
  - destruct (handleConnection_total c) as (body & ex & Hhc).
    apply dispatch_acquired in Hadm as (Hs & _ & Ha & _).
    exists (greeting ++ body), ex.
    exists (mkWorld (limiter w1) (connSemaphore w) (activeConns w)).
    split; [exact Hhc|]. rewrite performAll_writes. simpl.
    rewrite Hs. simpl. split; [|done].
    do 2 f_equal. rewrite Ha. lia.
  - intros i tr Hi Hrun.
    pose proof (Forall_lookup_1 _ _ _ _ Hrem Hi) as Hre.
    assert (Hact : active (Release :: tr)) by (by left).
    assert (Hpos : 0 < activeSessions s).
    { unfold activeSessions.
      assert (Hin : (Release :: tr) ∈ filter active (sessions s)).
      { apply list_elem_of_filter. split; [done|].
        by eapply list_elem_of_lookup_2. }
      destruct (filter active (sessions s)); [by apply elem_of_nil in Hin|].
      simpl. lia. }
    split.
    { destruct Hre as [H|[H|[H|H]]]; by inversion H. }
    destruct (connSemaphore (world s)) as [|n] eqn:Hn; [lia|].
    eexists. split; [by simpl; rewrite Hn|].
    apply step_session; [done|done|]. simpl. by rewrite Hn.
Qed.

Lemma session_releases_once_witness :
  exists body ex w2,
    handleConnection (Bufio.mkConn [] Bufio.DeadlineExceeded)
    = Some (map Write body ++ [CloseConn; Release; Decrement], ex)
    /\ performAll (map Write body ++ [CloseConn; Release; Decrement])
         (countUp (dispatch "203.0.113.9" 0 (mkWorld ∅ 7 7)).1) = Some w2
    /\ connSemaphore w2 = 7
    /\ activeConns w2 = 7%Z.
Proof.
  assert (Hinit : reachable init) by (exists []; constructor).
  refine (proj1 (session_releases_once
                   (Bufio.mkConn [] Bufio.DeadlineExceeded)
                   "203.0.113.9" 0 (mkWorld ∅ 7 7) _ init _ Hinit)).
  vm_compute. reflexivity.
Defined.


Lemma sleeps_snoc ls l :
  sleeps (ls ++ [l]) = sleeps ls + (if isSleep l then 1 else 0).
Proof.
  unfold sleeps. rewrite filter_app, length_app. f_equal.
  rewrite filter_cons, filter_nil. destruct (isSleep l); by case_decide.
Qed.



(** The facts the shutdown rests on, along an execution from the start:
    the listener is open exactly while the signal goroutine waits, the
    context is cancelled only after that, the main goroutine reaches the
    shutdown loop only under a cancelled context, and the sleeps taken
    are the passes of that loop. *)
Lemma exec_shutdown s0 ls s :
  exec s0 ls s -> s0 = init ->
  (sigAt s = Waiting <-> listening s = true)
  /\ (ctxDone s = true -> sigAt s = Cancelled)
  /\ (CloseListener ∈ ls -> sigAt s <> Waiting)
  /\ match mainAt s with
     | Draining i => i <= drainPasses /\ sleeps ls = i /\ ctxDone s = true
     | Exited => sleeps ls <= drainPasses /\ ctxDone s = true
     | _ => sleeps ls = 0
     end.
Proof.
  intros Hex ->. remember init as s0 eqn:Hs0.
  induction Hex as [s1|s1 ls s2 l s3 Hex IH Hstep].
  - subst. simpl. split; [done|]. split; [done|].
    split; [|done]. intros H. by apply elem_of_nil in H.
  - destruct (IH Hs0) as (Hlis & Hctx & Hcl & Hmain). clear IH.
    rewrite sleeps_snoc. setoid_rewrite elem_of_app.
    setoid_rewrite list_elem_of_singleton.
    destruct Hstep as [t Hrun|t Hrun Hsig Hpend|t Hrun Hsig|t Hm
                      |t ip now w msg Hm Hl Hadm|t ip now w Hm Hl Hadm
                      |t Hm|t c tr ex Hm Hhc|t i Hm
                      |t i e tr w Hrun Hi Hperf|t now Hrun]; simpl in *.
    all: try rewrite Hm in Hmain.
    all: split; [|split; [|split]].
    all: try (unfold drain; repeat case_bool_decide); simpl in *.
    all: try (destruct (mainAt t)); simpl in *.
    all: unfold drainPasses in *.
    all: try (intuition (try congruence; try lia; try done); fail).
    destruct (ctxDone t); simpl; intuition lia.
Qed.






End ServerFacts.

(** ** Parsing a selection *)

Section FmtFacts.

Import Fmt Session.

Local Open Scope Z_scope.

Lemma isAsciiSpace_cases c :
  isAsciiSpace c = true ->
  byteVal c = 9 \/ byteVal c = 11 \/ byteVal c = 12 \/ byteVal c = 13
  \/ byteVal c = 32.
Proof.
  unfold isAsciiSpace. cbn [existsb]. rewrite !orb_true_iff, !Z.eqb_eq.
  intuition discriminate.
Qed.

Lemma isDigit_cases c : isDigit c = true -> 48 <= byteVal c <= 57.
Proof. unfold isDigit, between. rewrite andb_true_iff. lia. Qed.

Lemma SkipSpace_space c inp :
  isAsciiSpace c = true -> SkipSpace 0 (c :: inp) = SkipSpace 0 inp.
Proof.
  intros Hc. apply isAsciiSpace_cases in Hc.
  cbn [SkipSpace decodeRune].
  destruct Hc as [H|[H|[H|[H|H]]]]; rewrite H; simpl; by destruct inp.
Qed.

Lemma SkipSpace_spaces ws inp :
  Forall (fun c => isAsciiSpace c = true) ws ->
  SkipSpace 0 (ws ++ inp) = SkipSpace 0 inp.
Proof.
  induction 1 as [|c ws Hc _ IH]; [done|].
  rewrite <- app_comm_cons, SkipSpace_space by done. exact IH.
Qed.

Lemma SkipSpace_digit c inp :
  isDigit c = true -> SkipSpace 0 (c :: inp) = Some (c :: inp).
Proof.
  intros Hc. apply isDigit_cases in Hc.
  cbn [SkipSpace decodeRune].
  assert (Hb : byteVal c = 48 \/ byteVal c = 49 \/ byteVal c = 50
               \/ byteVal c = 51 \/ byteVal c = 52 \/ byteVal c = 53
               \/ byteVal c = 54 \/ byteVal c = 55 \/ byteVal c = 56
               \/ byteVal c = 57) by lia.
  repeat destruct Hb as [Hb|Hb]; rewrite Hb; reflexivity.
Qed.

Lemma acceptSign_digit c inp :
  isDigit c = true -> acceptSign (c :: inp) = (false, c :: inp).
Proof.
  intros Hc. apply isDigit_cases in Hc. unfold acceptSign.
  rewrite (proj2 (Z.eqb_neq _ _)) by lia.
  by rewrite (proj2 (Z.eqb_neq _ _)) by lia.
Qed.

Lemma acceptDigits_app ds rest :
  Forall (fun c => isDigit c = true) ds ->
  match rest with c :: _ => isDigit c = false | [] => True end ->
  acceptDigits (ds ++ rest) = (ds, rest).
Proof.
  intros Hds Hrest. induction Hds as [|c ds Hc _ IH]; simpl.
  - destruct rest as [|c rest]; [done|]. simpl. by rewrite Hrest.
  - by rewrite Hc, IH.
Qed.

Lemma Sscanf_d_prefix ws ds rest :
  Forall (fun c => isAsciiSpace c = true) ws ->
  ds <> [] -> Forall (fun c => isDigit c = true) ds ->
  match rest with c :: _ => isDigit c = false | [] => True end ->
  Sscanf_d (string_of_list_ascii (ws ++ ds ++ rest)) = ParseInt false ds.
Proof.
  intros Hws Hne Hds Hrest. unfold Sscanf_d.
  rewrite list_ascii_of_string_of_list_ascii, SkipSpace_spaces by done.
  destruct ds as [|d ds]; [done|]. inversion Hds as [|? ? Hd Hds']; subst.
  rewrite <- app_comm_cons, !SkipSpace_digit, acceptSign_digit by done.
  rewrite app_comm_cons, acceptDigits_app by done. done.
Qed.

Lemma contacts_lookup num :
  1 <= num <= Z.of_nat (length contacts) ->
  exists c, contacts !! Z.to_nat (num - 1) = Some c /\ Num c = num.
Proof.
  simpl. intros Hnum.
  assert (Hc : num = 1 \/ num = 2 \/ num = 3 \/ num = 4 \/ num = 5) by lia.
  repeat destruct Hc as [Hc|Hc]; subst num; eexists; split; reflexivity.
Qed.

Lemma respond_number input num :
  input <> "q" -> input <> "quit" -> input <> "exit" ->
  Sscanf_d input = Some num ->
  if decide (1 <= num <= Z.of_nat (length contacts)) then
    exists c, contacts !! Z.to_nat (num - 1) = Some c /\ Num c = num
              /\ respond input = Continue [openingMsg c; prompt]
  else respond input = Continue [invalidMsg].
Proof.
  intros Hq Hquit Hexit Hscan. unfold respond.
  rewrite !bool_decide_eq_false_2 by done. rewrite Hscan. cbn [orb].
  case_decide as Hnum.
  - destruct (contacts_lookup num Hnum) as (c & Hc & Hn).
    exists c. split; [done|]. split; [done|].
    rewrite (proj2 (Z.leb_le _ _)) by lia.
    rewrite (proj2 (Z.leb_le _ _)) by lia. cbn [andb]. by rewrite Hc.
  - destruct (1 <=? num) eqn:H1; [|done].
    destruct (num <=? Z.of_nat (length contacts)) eqn:H2; [|done].
    apply Z.leb_le in H1, H2. lia.
Qed.

(** C6. A line equal to [q], [quit] or [exit] is answered with the
    farewell and ends the loop; any other line goes through [Sscanf]:
    when it yields a number from 1 to the number of contacts the answer
    is that contact's URL and the prompt, otherwise the invalid-input
    message.  The comparison is case-sensitive; every contact's own
    number selects it; and the sessions of the specification behave as
    it says: [3] then [q] gives the Zenn URL, the prompt, the farewell
    and the close; [0] and [99] give the invalid-input message. *)
Theorem respond_cases input :
  (input = "q" \/ input = "quit" \/ input = "exit" ->
   respond input = Quit [farewellMsg])
  /\ (input <> "q" -> input <> "quit" -> input <> "exit" ->
      match Sscanf_d input with
      | Some num =>
          if decide (1 <= num <= Z.of_nat (length contacts)) then
            exists c, contacts !! Z.to_nat (num - 1) = Some c /\ Num c = num
                      /\ respond input = Continue [openingMsg c; prompt]
          else respond input = Continue [invalidMsg]
      | None => respond input = Continue [invalidMsg]
      end)
  /\ Forall (fun c => respond (showNum (Num c)) = Continue [openingMsg c; prompt])
            contacts
  /\ respond "3"
     = Continue [nl +:+ "→ Opening Zenn: https://zenn.dev/hitto" +:+ nl +:+ nl;
                 "> Select [1-5] or 'q' to quit: "]
  /\ respond "0" = Continue ["Invalid input. Select [1-5] or 'q' to quit: "]
  /\ respond "99" = Continue ["Invalid input. Select [1-5] or 'q' to quit: "]
  /\ respond "Q" = Continue [invalidMsg]
  /\ respond "QUIT" = Continue [invalidMsg]
  /\ handleConnection
       (Bufio.mkConn [list_ascii_of_string ("3" +:+ nl);
                      list_ascii_of_string ("q" +:+ nl)] Bufio.EOF)
     = Some (map Write (greeting
                        ++ [nl +:+ "→ Opening Zenn: https://zenn.dev/hitto"
                               +:+ nl +:+ nl;
                            prompt; farewellMsg])
             ++ [CloseConn; Release; Decrement], ByQuit)
  /\ handleConnection
       (Bufio.mkConn [list_ascii_of_string ("0" +:+ nl +:+ "99" +:+ nl)]
                     Bufio.DeadlineExceeded)
     = Some (map Write (greeting ++ [invalidMsg; invalidMsg])
             ++ [CloseConn; Release; Decrement],
             ByReadFailure (Some (Bufio.ErrIO Bufio.DeadlineExceeded))).
Proof.
  split.
  { intros [-> | [-> | ->]]; reflexivity. }
  split.
  { intros Hq Hquit Hexit. destruct (Sscanf_d input) as [num|] eqn:Hscan.
    - by apply respond_number.
    - unfold respond. rewrite !bool_decide_eq_false_2 by done.
      by rewrite Hscan. }
  split; [by repeat constructor|].
  repeat split; by vm_compute.
Qed.

(** C10. The number need not be the whole line.  A line made of one-byte
    space characters, then digits whose value lies between 1 and the
    number of contacts, then anything that does not begin with a digit,
    is scanned as that value and answered with that contact's URL and
    the prompt; so are [3abc] and [ 3]. *)
Theorem numeric_prefix_selects ws ds rest :
  Forall (fun c => isAsciiSpace c = true) ws ->
  ds <> [] -> Forall (fun c => isDigit c = true) ds ->
  match rest with c :: _ => isDigit c = false | [] => True end ->
  1 <= digitsValue ds <= Z.of_nat (length contacts) ->
  Sscanf_d (string_of_list_ascii (ws ++ ds ++ rest)) = Some (digitsValue ds)
  /\ (exists c,
        contacts !! Z.to_nat (digitsValue ds - 1) = Some c
        /\ Num c = digitsValue ds
        /\ respond (string_of_list_ascii (ws ++ ds ++ rest))
           = Continue [openingMsg c; prompt])
  /\ respond "3abc" = respond "3"
  /\ respond " 3" = respond "3"
  /\ respond "3" = Continue [nl +:+ "→ Opening Zenn: https://zenn.dev/hitto"
                                +:+ nl +:+ nl; prompt].
Proof.
  intros Hws Hne Hds Hrest Hval.
  assert (Hscan : Sscanf_d (string_of_list_ascii (ws ++ ds ++ rest))
                  = Some (digitsValue ds)).
  { rewrite Sscanf_d_prefix by done. unfold ParseInt. simpl in Hval.
    cbn [negb andb]. rewrite (proj2 (Z.leb_gt _ _)) by lia. done. }
  split; [done|]. split; [|by vm_compute].
  assert (Hfirst : exists c l, ws ++ ds ++ rest = c :: l
                               /\ (isAsciiSpace c = true \/ isDigit c = true)).
  { destruct ws as [|c ws].
    - destruct ds as [|d ds]; [done|]. inversion Hds; subst. by eauto.
    - inversion Hws; subst. by eauto. }
  destruct Hfirst as (c & l & Hl & Hc).
  assert (Hno : forall s, (isAsciiSpace (default "0"%char (head (list_ascii_of_string s))) = false
                           /\ isDigit (default "0"%char (head (list_ascii_of_string s))) = false) ->
                          string_of_list_ascii (ws ++ ds ++ rest) <> s).
  { intros s [Hs1 Hs2] Heq. rewrite <- Heq in Hs1, Hs2.
    rewrite list_ascii_of_string_of_list_ascii, Hl in Hs1, Hs2. simpl in Hs1, Hs2.
    destruct Hc; congruence. }
  pose proof (respond_number _ _ (Hno "q" (conj eq_refl eq_refl))
                (Hno "quit" (conj eq_refl eq_refl))
                (Hno "exit" (conj eq_refl eq_refl)) Hscan) as Hresp.
  by rewrite decide_True in Hresp by done.
Qed.

Lemma numeric_prefix_selects_witness :
  Sscanf_d " 3abc" = Some 3
  /\ (exists c,
        contacts !! Z.to_nat (3 - 1) = Some c /\ Num c = 3
        /\ respond " 3abc" = Continue [openingMsg c; prompt]).
Proof.
  pose proof (numeric_prefix_selects
                (list_ascii_of_string " ") (list_ascii_of_string "3")
                (list_ascii_of_string "abc")) as H.
  destruct H as (H1 & H2 & _).
  - repeat constructor.
  - done.
  - repeat constructor.
  - reflexivity.
  - vm_compute. split; discriminate.
  - split; [exact H1|exact H2].
Defined.


End FmtFacts.

(** * Further properties *)

(** ** The rate limiter over whole runs *)

Section RunFacts.

Import Limiter Runs.

Implicit Types (r : rateLimiter) (ip : string) (now t : Z) (ts : list Z).




(** X3. After a sweep at [now] a key is present exactly when it was
    present with some timestamp later than [now - 2 * rateLimitWindow],
    and then with the record unchanged: records that are empty or wholly
    that old are gone, nothing else is touched; sweeping twice at the
    same instant changes nothing more. *)
Theorem cleanup_lookup now r ip ts :
  (cleanup now r !! ip = Some ts
   <-> r !! ip = Some ts
       /\ exists t, t ∈ ts /\ (now - rateLimitWindow * 2 < t)%Z)
  /\ cleanup now (cleanup now r) = cleanup now r.
Proof.
  split.
  - unfold cleanup. rewrite map_lookup_filter_Some. simpl.
    unfold allOld, After. rewrite <- Exists_Forall_neg by (intros; lia).
    rewrite Exists_exists.
    split; intros [H1 (t & Ht & Hlt)]; (split; [done|]); exists t;
      (split; [done|lia]).
  - unfold cleanup. apply map_eq. intros k.
    rewrite !map_lookup_filter. destruct (r !! k) as [l|]; simpl; [|done].
    destruct (decide (allOld (now - rateLimitWindow * 2) l)) as [Ho|Ho].
    + rewrite option_guard_False by tauto. done.
    + rewrite option_guard_True by done. simpl.
      by rewrite option_guard_True by done.
Qed.







Lemma compact_sub ws ts (P : Z -> Prop) :
  Forall P ts ->
  Forall P (compact ws ts) /\ length (compact ws ts) <= length ts.
Proof.
  intros H. unfold compact. split; [|apply length_filter].
  apply Forall_forall. intros t Ht. apply list_elem_of_filter in Ht as [_ Ht].
  rewrite Forall_forall in H. auto.
Qed.

Lemma run_records ops : forall r (P : string -> Z -> Prop),
  (forall ip ts, r !! ip = Some ts ->
     ts <> [] /\ length ts <= rateLimitMax /\ Forall (P ip) ts) ->
  forall ip ts, (run ops r).1 !! ip = Some ts ->
    ts <> [] /\ length ts <= rateLimitMax
    /\ Forall (fun t => P ip t \/ Verdict ip t true ∈ (run ops r).2) ts.
Proof.
  induction ops as [|[ip0 now|c] ops IH]; intros r P Hinv ip ts; simpl.
  - intros Hl. destruct (Hinv ip ts Hl) as (H1 & H2 & H3).
    split; [done|]. split; [done|]. eapply Forall_impl; [exact H3|]. tauto.
  - destruct (checkRateLimit now ip0 r) as [r1 ok] eqn:Echk.
    specialize (IH r1 (fun ip t => P ip t \/ (ip = ip0 /\ t = now /\ ok = true))).
    destruct (run ops r1) as [r2 vs] eqn:Erun. simpl in *. intros Hl.
    destruct (IH) with (ip := ip) (ts := ts) as (H1 & H2 & H3); [|done|].
    + clear IH Hl ip ts. intros ip ts Hl.
      unfold checkRateLimit in Echk. cbv zeta in Echk.
      set (valid := compact (now - rateLimitWindow) (loadOrStore r ip0)) in *.
      assert (Hvalid : Forall (P ip0) valid /\ length valid <= rateLimitMax).
      { unfold valid, loadOrStore. destruct (r !! ip0) as [l|] eqn:El; simpl.
        - destruct (Hinv ip0 l El) as (_ & Hlen & Hall).
          destruct (compact_sub (now - rateLimitWindow) l _ Hall). split; [done|lia].
        - split; [constructor|simpl; lia]. }
      destruct Hvalid as [Hall Hlen].
      case_decide as Hfull; injection Echk as <- <-.
      * rewrite lookup_insert in Hl. case_decide as Hip.
        -- subst ip0. injection Hl as <-.
           split; [intros Hnil; rewrite Hnil in Hfull; simpl in Hfull;
                   unfold rateLimitMax in Hfull; lia|].
           split; [done|]. eapply Forall_impl; [exact Hall|]. tauto.
        -- destruct (Hinv ip ts Hl) as (Ha & Hb & Hc).
           split; [done|]. split; [done|]. eapply Forall_impl; [exact Hc|]. tauto.
      * rewrite lookup_insert in Hl. case_decide as Hip.
        -- subst ip0. injection Hl as <-.
           split; [by destruct valid|]. rewrite length_app. simpl.
           split; [lia|]. apply Forall_app. split.
           ++ eapply Forall_impl; [exact Hall|]. tauto.
           ++ apply Forall_singleton. right. done.
        -- destruct (Hinv ip ts Hl) as (Ha & Hb & Hc).
           split; [done|]. split; [done|]. eapply Forall_impl; [exact Hc|]. tauto.
    + split; [done|]. split; [done|]. eapply Forall_impl; [exact H3|].
      intros t Ht. simpl in Ht.
      destruct Ht as [[Ht|(-> & -> & ->)]|Ht];
        [by left|right; by left|right; by right].
  - apply IH. intros ip' ts' Hl. apply Hinv.
    unfold cleanup in Hl. by apply map_lookup_filter_Some in Hl as [Hl _].
Qed.

(** X4. Starting from the empty limiter, whatever checks and sweeps are
    run, a record that is present is never empty, never holds more than
    [rateLimitMax] timestamps, and holds only instants of checks of its
    own address that returned true. *)
Theorem records_bounded ops ip ts :
  (run ops ∅).1 !! ip = Some ts ->
  ts <> [] /\ length ts <= rateLimitMax
  /\ Forall (fun t => Verdict ip t true ∈ (run ops ∅).2) ts.
Proof.
  intros Hl.
  destruct (run_records ops ∅ (fun _ _ => False)) with (ip := ip) (ts := ts)
    as (H1 & H2 & H3); [|done|].
  - intros ip' ts' H. by rewrite lookup_empty in H.
  - split; [done|]. split; [done|]. eapply Forall_impl; [exact H3|].
    intros t Ht. simpl in Ht. tauto.
Qed.

Lemma records_bounded_witness :
  let ops := [Check "203.0.113.9" 0; Check "203.0.113.9" (3 * second);
              Check "203.0.113.9" (11 * second)] in
  [3 * second; 11 * second]%Z <> [] /\ length [3 * second; 11 * second]%Z <= rateLimitMax
  /\ Forall (fun t => Verdict "203.0.113.9" t true ∈ (run ops ∅).2)
            [3 * second; 11 * second]%Z.
Proof.
  intros ops. apply (records_bounded ops "203.0.113.9").
  vm_compute. reflexivity.
Defined.


Lemma check_depends_on_record now ip r r' :
  loadOrStore r ip = loadOrStore r' ip ->
  (checkRateLimit now ip r).2 = (checkRateLimit now ip r').2
  /\ loadOrStore (checkRateLimit now ip r).1 ip
     = loadOrStore (checkRateLimit now ip r').1 ip.
Proof.
  intros Heq.
  assert (Hok : (checkRateLimit now ip r).2 = (checkRateLimit now ip r').2).
  { unfold checkRateLimit. cbv zeta. rewrite Heq. by case_decide. }
  split; [done|]. by rewrite !check_record_same, Heq, Hok.
Qed.

Lemma run_own_record ip ops : forall r r',
  loadOrStore r ip = loadOrStore r' ip ->
  filter (fun v => v_ip v = ip) (run ops r).2
  = (run (filter (concerns ip) ops) r').2.
Proof.
  induction ops as [|[ip' now|c] ops IH]; intros r r' Heq; [done| |].
  - rewrite (filter_cons (concerns ip)). simpl.
    destruct (decide (ip' = ip)) as [->|Hne].
    + destruct (check_depends_on_record now ip r r' Heq) as [Hok Hrec].
      simpl. destruct (checkRateLimit now ip r) as [r1 ok].
      destruct (checkRateLimit now ip r') as [r1' ok']. simpl in *. subst ok'.
      specialize (IH r1 r1' Hrec).
      destruct (run ops r1) as [r2 vs]. destruct (run _ r1') as [r2' vs'].
      simpl in *. rewrite filter_cons_True by done. by f_equal.
    + pose proof (check_record_other now ip' ip r Hne) as Hother.
      destruct (checkRateLimit now ip' r) as [r1 ok]. simpl in Hother.
      specialize (IH r1 r'). destruct (run ops r1) as [r2 vs]. simpl in *.
      rewrite filter_cons_False by done. apply IH. by rewrite Hother.
  - rewrite filter_cons_True by done. simpl. apply IH.
    by rewrite !cleanup_record, Heq.
Qed.

(** X5. The verdicts of one address do not depend on the checks of the
    other addresses: leaving those checks out of the run leaves the
    verdicts of this address as they are. *)
Theorem addresses_do_not_interfere ops r ip :
  filter (fun v => v_ip v = ip) (run ops r).2
  = (run (filter (concerns ip) ops) r).2.
Proof. by apply run_own_record. Qed.


End RunFacts.

(** ** The rate-limit key *)

Section NetFacts.

Import Net.

Implicit Types (host port s : list ascii).

Lemma lastIndexByte_None b s : b ∉ s -> lastIndexByte b s = None.
Proof.
  induction s as [|c s IH]; [done|]. rewrite not_elem_of_cons.
  intros [Hne Hs]. simpl. rewrite IH by done. by rewrite decide_False.
Qed.

Lemma lastIndexByte_last b s1 s2 :
  b ∉ s2 -> lastIndexByte b (s1 ++ b :: s2) = Some (length s1).
Proof.
  intros Hs2. induction s1 as [|c s1 IH]; simpl.
  - rewrite lastIndexByte_None by done. by rewrite decide_True.
  - by rewrite IH.
Qed.

Lemma has_false b s : b ∉ s -> has b s = false.
Proof.
  intros Hs. unfold has. apply bool_decide_eq_false_2.
  intros H. apply H. by apply indexByte_None.
Qed.

Lemma has_true b s : b ∈ s -> has b s = true.
Proof.
  intros Hs. unfold has. apply bool_decide_eq_true_2.
  intros H. by apply indexByte_None in H.
Qed.

Lemma not_elem_of_Forall b s : Forall (fun c => c <> b) s -> b ∉ s.
Proof. rewrite Forall_forall. intros H Hin. by apply (H b). Qed.

(** X6. For an address of the form host, colon, port, where the host has
    no colon and neither part a bracket, the key is the host: the port
    is dropped, so connections from one host share one rate record
    whatever their source ports. *)
Theorem extractIP_host_port host port port' :
  Forall (fun c => c <> colon /\ c <> lbracket /\ c <> rbracket) host ->
  Forall (fun c => c <> colon /\ c <> lbracket /\ c <> rbracket) port ->
  Forall (fun c => c <> colon /\ c <> lbracket /\ c <> rbracket) port' ->
  SplitHostPort (host ++ colon :: port) = Some (host, port)
  /\ extractIP (string_of_list_ascii (host ++ colon :: port))
     = string_of_list_ascii host
  /\ extractIP (string_of_list_ascii (host ++ colon :: port))
     = extractIP (string_of_list_ascii (host ++ colon :: port')).
Proof.
  assert (Hsplit : forall p,
    Forall (fun c => c <> colon /\ c <> lbracket /\ c <> rbracket) host ->
    Forall (fun c => c <> colon /\ c <> lbracket /\ c <> rbracket) p ->
    SplitHostPort (host ++ colon :: p) = Some (host, p)).
  { intros p Hh Hp.
    assert (Hh1 : (colon ∉ host) /\ (lbracket ∉ host) /\ (rbracket ∉ host)).
    { repeat split; apply not_elem_of_Forall;
        (eapply Forall_impl; [exact Hh|]); simpl; tauto. }
    assert (Hp1 : (colon ∉ p) /\ (lbracket ∉ p) /\ (rbracket ∉ p)).
    { repeat split; apply not_elem_of_Forall;
        (eapply Forall_impl; [exact Hp|]); simpl; tauto. }
    destruct Hh1 as (Hhc & Hhl & Hhr). destruct Hp1 as (Hpc & Hpl & Hpr).
    unfold SplitHostPort. rewrite lastIndexByte_last by done.
    rewrite bool_decide_eq_false_2.
    2:{ destruct host as [|c host]; simpl; [by intros [=]|].
        intros [= ->]. apply Hhl. by left. }
    rewrite take_app_length, (has_false colon host) by done.
    rewrite !drop_0, !has_false.
    - by rewrite drop_app_add.
    - apply not_elem_of_app. split; [done|].
      apply not_elem_of_cons. split; [discriminate|done].
    - apply not_elem_of_app. split; [done|].
      apply not_elem_of_cons. split; [discriminate|done]. }
  intros Hh Hp Hp'. split; [by apply Hsplit|].
  unfold extractIP. rewrite !list_ascii_of_string_of_list_ascii.
  by rewrite !Hsplit.
Qed.

Lemma extractIP_host_port_witness :
  extractIP "203.0.113.9:51234" = "203.0.113.9"
  /\ extractIP "203.0.113.9:51234" = extractIP "203.0.113.9:40000".
Proof.
  refine (proj2 (extractIP_host_port
                   (list_ascii_of_string "203.0.113.9")
                   (list_ascii_of_string "51234")
                   (list_ascii_of_string "40000") _ _ _));
    repeat constructor; discriminate.
Defined.

(** X7. For a bracketed address, as an IPv6 peer has it, the key is what
    stands between the brackets, colons included. *)
Theorem extractIP_bracketed host port :
  Forall (fun c => c <> lbracket /\ c <> rbracket) host ->
  Forall (fun c => c <> colon /\ c <> lbracket /\ c <> rbracket) port ->
  SplitHostPort (lbracket :: host ++ rbracket :: colon :: port)
  = Some (host, port)
  /\ extractIP (string_of_list_ascii
                  (lbracket :: host ++ rbracket :: colon :: port))
     = string_of_list_ascii host.
Proof.
  intros Hh Hp.
  assert (Hh1 : (lbracket ∉ host) /\ (rbracket ∉ host)).
  { split; apply not_elem_of_Forall;
      (eapply Forall_impl; [exact Hh|]); simpl; tauto. }
  assert (Hp1 : (colon ∉ port) /\ (lbracket ∉ port) /\ (rbracket ∉ port)).
  { repeat split; apply not_elem_of_Forall;
      (eapply Forall_impl; [exact Hp|]); simpl; tauto. }
  destruct Hh1 as (Hhl & Hhr). destruct Hp1 as (Hpc & Hpl & Hpr).
  assert (Hsplit : SplitHostPort (lbracket :: host ++ rbracket :: colon :: port)
                   = Some (host, port)).
  { unfold SplitHostPort.
    replace (lbracket :: host ++ rbracket :: colon :: port)
      with ((lbracket :: host ++ [rbracket]) ++ colon :: port)
      by (simpl; by rewrite <- app_assoc).
    rewrite lastIndexByte_last by done.
    replace ((lbracket :: host ++ [rbracket]) ++ colon :: port)
      with ((lbracket :: host) ++ rbracket :: colon :: port)
      by (simpl; by rewrite <- app_assoc).
    rewrite bool_decide_eq_true_2 by done.
    rewrite indexByte_first.
    2:{ apply not_elem_of_cons. split; [discriminate|done]. }
    rewrite !length_app. cbn [length]. rewrite !length_app. cbn [length].
    rewrite decide_False by lia. rewrite decide_True by lia.
    replace (S (length host) - 1) with (length host) by lia.
    replace (S (length host) + 1) with (length (lbracket :: host) + 1)
      by (simpl; lia).
    replace (S (length host + 1) + 1) with (length (lbracket :: host) + 2)
      by (simpl; lia).
    rewrite !drop_app_add. cbn [app drop]. rewrite !drop_0, take_app_length.
    rewrite has_false.
    2:{ apply not_elem_of_app. split; [done|].
        rewrite !not_elem_of_cons. repeat split; (discriminate || done). }
    rewrite has_false; [done|].
    apply not_elem_of_cons. split; [discriminate|done]. }
  split; [done|]. unfold extractIP.
  by rewrite list_ascii_of_string_of_list_ascii, Hsplit.
Qed.

Lemma extractIP_bracketed_witness :
  extractIP "[2001:db8::7]:51234" = "2001:db8::7".
Proof.
  refine (proj2 (extractIP_bracketed (list_ascii_of_string "2001:db8::7")
                   (list_ascii_of_string "51234") _ _));
    repeat constructor; discriminate.
Defined.

(** X8. When [net.SplitHostPort] fails the key is the whole address: so
    for an address without any colon, and for one without brackets that
    has more than one colon. *)
Theorem extractIP_fallback s1 s2 :
  (colon ∉ s1 ->
   extractIP (string_of_list_ascii s1) = string_of_list_ascii s1)
  /\ (colon ∈ s1 -> colon ∉ s2 -> head s1 <> Some lbracket ->
      extractIP (string_of_list_ascii (s1 ++ colon :: s2))
      = string_of_list_ascii (s1 ++ colon :: s2)).
Proof.
  split.
  - intros Hs. unfold extractIP, SplitHostPort.
    rewrite list_ascii_of_string_of_list_ascii.
    by rewrite lastIndexByte_None.
  - intros Hin Hs2 Hhd. unfold extractIP, SplitHostPort.
    rewrite list_ascii_of_string_of_list_ascii.
    rewrite lastIndexByte_last by done.
    rewrite bool_decide_eq_false_2.
    2:{ destruct s1; [by apply elem_of_nil in Hin|done]. }
    by rewrite take_app_length, has_true.
Qed.


End NetFacts.

(** ** The session as a function of the bytes received *)

Section StreamFacts.

Import Bufio Session Stream.

Lemma sessionLoop_after_failure fuel s :
  ready maxInputSize s -> err s <> None ->
  sessionLoop (S fuel) s = Some ([], readFailure (rdFinal s)).
Proof.
  intros Hr He. destruct (Scan_done _ s Hr He) as (s' & HS & Herr).
  cbn [sessionLoop]. rewrite HS. unfold Err. rewrite Herr.
  by destruct (rdFinal s).
Qed.

Lemma sessionLoop_answers : forall fuel s,
  ready maxInputSize s -> err s = None ->
  length (pending s) + 1 <= fuel ->
  sessionLoop fuel s = Some (answers fuel (pending s) (rdFinal s)).
Proof.
  induction fuel as [|fuel IH]; intros s Hr He Hfuel; [lia|].
  pose proof (Scan_spec _ s Hr He) as Hsp. unfold scanned in Hsp.
  cbn [sessionLoop answers].
  destruct (indexByte LF (take maxInputSize (pending s))) as [i|] eqn:Hi.
  - destruct Hsp as (s' & -> & Htok & Hp & Hr' & He' & Hf).
    unfold Text, lineText. rewrite Htok.
    destruct (respond _); [done| |done].
    rewrite IH, Hp, Hf; [by destruct (answers _ _ _)|done|done|].
    rewrite Hp, length_drop.
    apply indexByte_Some in Hi as (Hlt & _). rewrite length_take in Hlt. lia.
  - case_decide as Hlen.
    + destruct Hsp as (s' & -> & ->). done.
    + case_decide as Hnil.
      * destruct Hsp as (s' & -> & Herr). unfold Err. rewrite Herr.
        by destruct (rdFinal s).
      * destruct Hsp as (s' & -> & Htok & Hp & Hr' & He' & Hf).
        unfold Text, lineText. rewrite Htok.
        destruct (respond _); [done| |done].
        destruct fuel as [|fuel].
        { destruct (pending s); [done|simpl in Hfuel; lia]. }
        rewrite sessionLoop_after_failure by (done || by rewrite He').
        by rewrite Hf, app_nil_r.
Qed.

(** X9. The handler is the stream function: after the greeting it writes
    what [Stream.session] computes from the bytes received, taken
    together, and the final read error, then runs the deferred
    function. *)
Theorem handleConnection_stream c :
  handleConnection c
  = Some (map Write (greeting ++ (session (concat (arriving c)) (final c)).1)
          ++ deferred,
          (session (concat (arriving c)) (final c)).2).
Proof.
  unfold handleConnection, session.
  destruct (NewScanner_ready c) as (Hr & He & Hp).
  rewrite sessionLoop_answers; [|done|done|].
  - rewrite pendingInput_length, Hp. simpl.
    by destruct (answers _ _ _).
  - by rewrite pendingInput_length.
Qed.

(** X10. How the bytes are split into reads does not matter: two
    connections that deliver the same bytes and end with the same error
    get the same session. *)
Theorem reads_may_split_anywhere c c' :
  concat (arriving c) = concat (arriving c') -> final c = final c' ->
  handleConnection c = handleConnection c'.
Proof. intros Hb Hf. by rewrite !handleConnection_stream, Hb, Hf. Qed.

Lemma reads_may_split_anywhere_witness :
  handleConnection
    (mkConn [list_ascii_of_string "qu"; []; list_ascii_of_string "i";
             list_ascii_of_string ("t" +:+ nl)] DeadlineExceeded)
  = handleConnection
      (mkConn [list_ascii_of_string ("quit" +:+ nl)] DeadlineExceeded).
Proof. by apply reads_may_split_anywhere. Defined.

Lemma respond_shape input :
  (respond input = Quit [farewellMsg]
   /\ (input = "q" \/ input = "quit" \/ input = "exit"))
  \/ (respond input = Continue [invalidMsg]
      /\ input <> "q" /\ input <> "quit" /\ input <> "exit")
  \/ (exists c, c ∈ contacts /\ respond input = Continue [openingMsg c; prompt]
                /\ Fmt.Sscanf_d input = Some (Num c)
                /\ input <> "q" /\ input <> "quit" /\ input <> "exit").
Proof.
  destruct (decide (input = "q")) as [->|Hq]; [left; split; [done|tauto]|].
  destruct (decide (input = "quit")) as [->|Hquit]; [left; split; [done|tauto]|].
  destruct (decide (input = "exit")) as [->|Hexit]; [left; split; [done|tauto]|].
  right. destruct (Fmt.Sscanf_d input) as [num|] eqn:Hscan.
  - pose proof (respond_number input num Hq Hquit Hexit Hscan) as H.
    case_decide.
    + right. destruct H as (c & Hc & Hn & Hr). exists c.
      split; [by eapply list_elem_of_lookup_2|]. subst num. done.
    + by left.
  - left. split; [|done]. unfold respond.
    rewrite !bool_decide_eq_false_2 by done. by rewrite Hscan.
Qed.

(** X14. Whatever the line, [respond] never indexes outside the contact
    table; it ends the session exactly for the three quit words, spelled
    exactly; every other line gets the invalid-input message or, when
    [Sscanf] reads a contact's number off it, that contact's URL and the
    prompt. *)
Theorem respond_is_total_and_exact input :
  respond input <> Panic
  /\ ((exists out, respond input = Quit out)
      <-> input = "q" \/ input = "quit" \/ input = "exit")
  /\ (input <> "q" -> input <> "quit" -> input <> "exit" ->
      respond input = Continue [invalidMsg]
      \/ exists c, c ∈ contacts /\ Fmt.Sscanf_d input = Some (Num c)
                   /\ respond input = Continue [openingMsg c; prompt]).
Proof.
  destruct (respond_shape input)
    as [[Hr Hin]|[[Hr (Hq & Hquit & Hexit)]|(c & Hc & Hr & Hs & Hq & Hquit & Hexit)]].
  - split; [by rewrite Hr|]. split; [split; [done|by eauto]|]. tauto.
  - split; [by rewrite Hr|]. split; [|by auto].
    split; [intros [out Ho]; congruence|tauto].
  - split; [by rewrite Hr|]. split; [|by eauto].
    split; [intros [out Ho]; congruence|tauto].
Qed.

Lemma reply_not_closing m :
  isReply m -> m <> farewellMsg /\ m <> tooLargeMsg.
Proof.
  intros [->|[->|(c & Hc & ->)]]; [by vm_compute|by vm_compute|].
  repeat (apply elem_of_cons in Hc as [->|Hc]; [by vm_compute|]).
  by apply elem_of_nil in Hc.
Qed.

Lemma answers_shape e : forall fuel p out ex,
  answers fuel p e = (out, ex) ->
  ex <> ByPanic
  /\ (ex = ByQuit \/ ex = ByTooLong \/ ex = readFailure e)
  /\ exists body, Forall isReply body /\ out = body ++ closing ex.
Proof.
  assert (Hrf : readFailure e <> ByPanic /\ closing (readFailure e) = []).
  { by destruct e. }
  destruct Hrf as [Hrf1 Hrf2].
  induction fuel as [|fuel IH]; intros p out ex; simpl.
  - intros [= <- <-]. split; [done|]. split; [tauto|].
    exists []. by rewrite Hrf2.
  - assert (Hline : forall line k,
      (forall out', respond line = Continue out' -> Forall isReply out' ->
         k out' = (out, ex) ->
         ex <> ByPanic
         /\ (ex = ByQuit \/ ex = ByTooLong \/ ex = readFailure e)
         /\ exists body, Forall isReply body /\ out = body ++ closing ex) ->
      match respond line with
      | Quit out' => (out', ByQuit)
      | Continue out' => k out'
      | Panic => ([], ByPanic)
      end = (out, ex) ->
      ex <> ByPanic
      /\ (ex = ByQuit \/ ex = ByTooLong \/ ex = readFailure e)
      /\ exists body, Forall isReply body /\ out = body ++ closing ex).
    { intros line k Hk.
      destruct (respond_shape line)
        as [[Hr _]|[[Hr _]|(c & Hc & Hr & _)]]; rewrite Hr.
      - intros [= <- <-]. split; [done|]. split; [tauto|]. by exists [].
      - apply Hk; [done|]. apply Forall_singleton. by left.
      - apply Hk; [done|]. apply Forall_cons. split; [right; right; by eauto|].
        apply Forall_singleton. right. by left. }
    destruct (indexByte LF (take maxInputSize p)) as [i|].
    + apply Hline. intros out' Hr Hrep.
      destruct (answers fuel (drop (S i) p) e) as [more ex'] eqn:Ha.
      intros [= <- <-]. destruct (IH _ _ _ Ha) as (H1 & H2 & body & Hb & ->).
      split; [done|]. split; [done|]. exists (out' ++ body).
      split; [by apply Forall_app|by rewrite app_assoc].
    + repeat case_decide.
      * intros [= <- <-]. split; [done|]. split; [tauto|]. by exists [].
      * intros [= <- <-]. split; [done|]. split; [tauto|].
        exists []. by rewrite Hrf2.
      * apply Hline. intros out' Hr Hrep [= <- <-].
        split; [done|]. split; [tauto|]. exists out'.
        by rewrite Hrf2, app_nil_r.
Qed.

(** X12. Every session has the same outline, whatever it receives: the
    greeting, then replies to lines (the invalid-input message, a
    contact's URL, the prompt), then at most one closing message, then
    the deferred close, release and decrement.  The closing message is
    the farewell exactly when the session ends by a quit word, the
    too-large message exactly when it ends by an oversized line, and
    nothing when a read fails; neither message occurs earlier; no
    session ends by a panic. *)
Theorem session_outline c :
  exists body ex,
    handleConnection c
    = Some (map Write (greeting ++ body ++ closing ex)
            ++ [CloseConn; Release; Decrement], ex)
    /\ ex <> ByPanic
    /\ (ex = ByQuit \/ ex = ByTooLong \/ ex = readFailure (final c))
    /\ Forall (fun m => isReply m /\ m <> farewellMsg /\ m <> tooLargeMsg) body.
Proof.
  rewrite handleConnection_stream.
  destruct (session (concat (arriving c)) (final c)) as [out ex] eqn:Hs.
  destruct (answers_shape _ _ _ _ _ Hs) as (H1 & H2 & body & Hb & ->).
  exists body, ex. split; [done|]. split; [done|]. split; [done|].
  eapply Forall_impl; [exact Hb|]. intros m Hm. split; [done|].
  by apply reply_not_closing.
Qed.


Lemma answers_fuel e : forall f1 f2 p,
  length p < f1 -> length p < f2 -> answers f1 p e = answers f2 p e.
Proof.
  induction f1 as [|f1 IH]; intros [|f2] p H1 H2; try lia.
  cbn [answers].
  destruct (indexByte LF (take maxInputSize p)) as [i|] eqn:Hi; [|done].
  destruct (respond _); [done| |done].
  apply indexByte_Some in Hi as (Hlt & _). rewrite length_take in Hlt.
  rewrite (IH f2); [done|rewrite length_drop; lia..].
Qed.

Lemma dropCR_snoc line : dropCR (line ++ [CR]) = line.
Proof.
  unfold dropCR. rewrite reverse_app. simpl.
  by rewrite reverse_involutive.
Qed.

Lemma dropCR_plain line : last line <> Some CR -> dropCR line = line.
Proof.
  intros Hl. unfold dropCR. rewrite <- head_reverse in Hl.
  destruct (reverse line) as [|c r]; [done|]. simpl in Hl.
  rewrite decide_False; [done|]. intros ->. done.
Qed.

Lemma answers_line fuel line rest e :
  indexByte LF line = None -> length line < maxInputSize ->
  answers (S fuel) (line ++ LF :: rest) e
  = match respond (lineText line) with
    | Quit out => (out, ByQuit)
    | Continue out =>
        let '(more, ex) := answers fuel rest e in (out ++ more, ex)
    | Panic => ([], ByPanic)
    end.
Proof.
  intros Hline Hlen. apply indexByte_None in Hline. cbn [answers].
  rewrite take_app_ge by lia.
  destruct (maxInputSize - length line) as [|k] eqn:Hk; [lia|].
  cbn [take]. rewrite indexByte_first by done.
  rewrite take_app_length.
  replace (S (length line)) with (length line + 1) by lia.
  by rewrite drop_app_add.
Qed.

(** X11. A last line that never got its newline is still answered: when
    the read fails (end of stream, deadline, reset) with fewer than
    [maxInputSize] bytes pending and no newline among them, they are
    taken as a line; the session then ends without a further message,
    unless that line was a quit word. *)
Theorem unterminated_last_line c :
  indexByte LF (concat (arriving c)) = None ->
  concat (arriving c) <> [] ->
  length (concat (arriving c)) < maxInputSize ->
  handleConnection c
  = match respond (lineText (concat (arriving c))) with
    | Quit out =>
        Some (map Write (greeting ++ out) ++ deferred, ByQuit)
    | Continue out =>
        Some (map Write (greeting ++ out) ++ deferred, readFailure (final c))
    | Panic => Some (map Write greeting ++ deferred, ByPanic)
    end.
Proof.
  intros Hnl Hne Hlen. rewrite handleConnection_stream. unfold session.
  replace (length (concat (arriving c)) + 1)
    with (S (length (concat (arriving c)))) by lia.
  cbn [answers]. rewrite take_ge by lia. rewrite Hnl.
  rewrite decide_False by lia. rewrite decide_False by done.
  destruct (respond _); simpl; by rewrite ?app_nil_r.
Qed.

Lemma unterminated_last_line_witness :
  handleConnection (mkConn [["3"%char]] DeadlineExceeded)
  = match respond (lineText ["3"%char]) with
    | Quit out =>
        Some (map Write (greeting ++ out) ++ deferred, ByQuit)
    | Continue out =>
        Some (map Write (greeting ++ out) ++ deferred,
              readFailure DeadlineExceeded)
    | Panic => Some (map Write greeting ++ deferred, ByPanic)
    end.
Proof.
  apply (unterminated_last_line (mkConn [["3"%char]] DeadlineExceeded)).
  - reflexivity.
  - discriminate.
  - simpl. unfold maxInputSize. lia.
Defined.

(** X13. A line ended by carriage return and newline is answered like
    the same line ended by a newline alone, as long as it fits the buffer
    with its carriage return and does not itself end in one: exactly one
    carriage return is dropped. *)
Theorem crlf_like_lf c c' line rest :
  concat (arriving c) = line ++ CR :: LF :: rest ->
  concat (arriving c') = line ++ LF :: rest ->
  final c = final c' ->
  indexByte LF line = None -> last line <> Some CR ->
  length line + 1 < maxInputSize ->
  handleConnection c = handleConnection c'.
Proof.
  intros Hc Hc' Hf Hnl Hlast Hlen.
  rewrite !handleConnection_stream, Hc, Hc', Hf. unfold session.
  assert (Hnl' : indexByte LF (line ++ [CR]) = None).
  { apply indexByte_None. apply indexByte_None in Hnl.
    apply not_elem_of_app. split; [done|].
    apply not_elem_of_cons. split; [discriminate|apply not_elem_of_nil]. }
  replace (line ++ CR :: LF :: rest) with ((line ++ [CR]) ++ LF :: rest)
    by (by rewrite <- app_assoc).
  rewrite !length_app. cbn [length].
  replace (length line + 1 + S (length rest) + 1)
    with (S (length rest + length line + 2)) by lia.
  replace (length line + S (length rest) + 1)
    with (S (length rest + length line + 1)) by lia.
  rewrite !answers_line; [|done|lia|done|rewrite length_app; simpl; lia].
  unfold lineText. rewrite dropCR_snoc, dropCR_plain by done.
  destruct (respond _); [done| |done].
  by rewrite (answers_fuel _ (length rest + length line + 2)
                (length rest + length line + 1)) by lia.
Qed.

Lemma crlf_like_lf_witness :
  handleConnection (mkConn [["2"%char; CR; LF; "q"%char; LF]] EOF)
  = handleConnection (mkConn [["2"%char; LF; "q"%char; LF]] EOF).
Proof.
  apply (crlf_like_lf _ _ ["2"%char] ["q"%char; LF]).
  - reflexivity.
  - reflexivity.
  - reflexivity.
  - reflexivity.
  - discriminate.
  - simpl. unfold maxInputSize. lia.
Defined.


Lemma answers_dialogue e : forall lines fuel,
  Forall (fun l => indexByte LF l = None /\ length l < maxInputSize) lines ->
  length (wire lines) < fuel ->
  answers fuel (wire lines) e = dialogue lines e.
Proof.
  induction lines as [|l lines IH]; intros fuel Hall Hfuel.
  - destruct fuel; [simpl in Hfuel; lia|]. simpl.
    unfold maxInputSize. simpl. done.
  - inversion Hall as [|? ? [Hnl Hlen] Hall']; subst.
    destruct fuel as [|fuel]; [lia|].
    unfold wire in *. cbn [map concat] in *. rewrite <- app_assoc in *.
    cbn [app] in *. rewrite answers_line by done. cbn [dialogue].
    destruct (respond _); [done| |done].
    rewrite IH; [done|done|]. rewrite length_app in Hfuel. simpl in Hfuel. lia.
Qed.

(** X21. The protocol is line by line.  When the client sends lines that
    each fit the buffer (fewer than [maxInputSize] bytes before the
    newline), however many and however split into reads, the session
    answers them one by one in order, each as [respond] answers it alone,
    up to the first quit word; what follows a quit word is not read; the
    size limit bears on each line, not on the session. *)
Theorem session_is_line_by_line c lines :
  concat (arriving c) = wire lines ->
  Forall (fun l => indexByte LF l = None /\ length l < maxInputSize) lines ->
  handleConnection c
  = Some (map Write (greeting ++ (dialogue lines (final c)).1) ++ deferred,
          (dialogue lines (final c)).2)
  /\ (dialogue lines (final c)).2 <> ByTooLong.
Proof.
  intros Hc Hall. rewrite handleConnection_stream, Hc. unfold session.
  rewrite answers_dialogue by (done || lia). split; [done|].
  clear Hc. induction Hall as [|l lines _ _ IH]; simpl.
  - by destruct (final c).
  - destruct (respond _); [done| |done].
    by destruct (dialogue lines (final c)).
Qed.

Lemma session_is_line_by_line_witness :
  handleConnection
    (mkConn [list_ascii_of_string ("7" +:+ nl +:+ "2");
             list_ascii_of_string (nl +:+ "quit" +:+ nl +:+ "1" +:+ nl)] EOF)
  = Some (map Write (greeting ++ [invalidMsg]
                     ++ [openingMsg (mkContact 2 "GitHub" "github.com/hitto-hub");
                         prompt]
                     ++ [farewellMsg]) ++ deferred, ByQuit).
Proof.
  refine (proj1 (session_is_line_by_line
                   (mkConn [list_ascii_of_string ("7" +:+ nl +:+ "2");
                            list_ascii_of_string
                              (nl +:+ "quit" +:+ nl +:+ "1" +:+ nl)] EOF)
                   [["7"%char]; ["2"%char];
                    list_ascii_of_string "quit"; ["1"%char]] _ _)).
  - reflexivity.
  - unfold maxInputSize. repeat constructor; simpl; lia.
Defined.


End StreamFacts.

(** ** Numbers that select nothing, and signs *)

Section SelectionFacts.

Import Fmt Session.

Local Open Scope Z_scope.

Lemma not_quit_word (l : list ascii) c l' :
  l = c :: l' ->
  c <> "q"%char -> c <> "e"%char ->
  string_of_list_ascii l <> "q" /\ string_of_list_ascii l <> "quit"
  /\ string_of_list_ascii l <> "exit".
Proof.
  intros -> Hq He. simpl.
  repeat split; intros [= Hc _]; congruence.
Qed.

Lemma leading_char_not_quit c :
  isAsciiSpace c = true \/ isDigit c = true \/ byteVal c = 43 \/ byteVal c = 45 ->
  c <> "q"%char /\ c <> "e"%char.
Proof. intros H. split; intros ->; vm_compute in H; intuition discriminate. Qed.

Lemma fold_digits_nonneg ds :
  Forall (fun c => isDigit c = true) ds ->
  forall acc, 0 <= acc ->
    0 <= fold_left (fun a c => a * 10 + (byteVal c - 48)) ds acc.
Proof.
  induction 1 as [|c ds Hc _ IH]; intros acc Hacc; simpl; [done|].
  apply IH. apply isDigit_cases in Hc. lia.
Qed.

Lemma digitsValue_nonneg ds :
  Forall (fun c => isDigit c = true) ds -> 0 <= digitsValue ds.
Proof. intros H. by apply fold_digits_nonneg. Qed.

Lemma respond_invalid input :
  input <> "q" -> input <> "quit" -> input <> "exit" ->
  match Sscanf_d input with
  | Some num => num < 1 \/ Z.of_nat (length contacts) < num
  | None => True
  end ->
  respond input = Continue [invalidMsg].
Proof.
  intros Hq Hquit Hexit Hs.
  destruct (Sscanf_d input) as [num|] eqn:Hscan.
  - pose proof (respond_number input num Hq Hquit Hexit Hscan) as H.
    by rewrite decide_False in H by lia.
  - unfold respond. rewrite !bool_decide_eq_false_2 by done. by rewrite Hscan.
Qed.

(** X15. A number that is not a contact's selects nothing, however large:
    after optional one-byte spaces, a run of digits worth zero or more
    than the number of contacts gets the invalid-input message; a value
    that does not fit 64 bits is a scan error, not a wrapped number. *)
Theorem number_out_of_range_invalid ws ds rest :
  Forall (fun c => isAsciiSpace c = true) ws ->
  ds <> [] -> Forall (fun c => isDigit c = true) ds ->
  match rest with c :: _ => isDigit c = false | [] => True end ->
  digitsValue ds = 0 \/ Z.of_nat (length contacts) < digitsValue ds ->
  Sscanf_d (string_of_list_ascii (ws ++ ds ++ rest))
  = (if digitsValue ds <? 2 ^ 63 then Some (digitsValue ds) else None)
  /\ respond (string_of_list_ascii (ws ++ ds ++ rest)) = Continue [invalidMsg].
Proof.
  intros Hws Hne Hds Hrest Hval.
  assert (Hscan : Sscanf_d (string_of_list_ascii (ws ++ ds ++ rest))
                  = (if digitsValue ds <? 2 ^ 63 then Some (digitsValue ds)
                     else None)).
  { rewrite Sscanf_d_prefix by done. unfold ParseInt. cbn [negb andb].
    rewrite Z.leb_antisym. by destruct (digitsValue ds <? 2 ^ 63). }
  split; [done|].
  assert (Hfirst : exists c l, ws ++ ds ++ rest = c :: l
                               /\ (isAsciiSpace c = true \/ isDigit c = true)).
  { destruct ws as [|c ws].
    - destruct ds as [|d ds]; [done|]. inversion Hds; subst. by eauto.
    - inversion Hws; subst. by eauto. }
  destruct Hfirst as (c & l & Hl & Hc).
  destruct (leading_char_not_quit c) as [Hcq Hce]; [tauto|].
  destruct (not_quit_word _ _ _ Hl Hcq Hce) as (Hq & Hquit & Hexit).
  apply respond_invalid; try done. rewrite Hscan.
  destruct (digitsValue ds <? 2 ^ 63); [lia|done].
Qed.

Lemma number_out_of_range_invalid_witness :
  respond "18446744073709551619" = Continue [invalidMsg].
Proof.
  refine (proj2 (number_out_of_range_invalid []
                   (list_ascii_of_string "18446744073709551619") [] _ _ _ _ _)).
  - constructor.
  - discriminate.
  - repeat constructor.
  - exact I.
  - right. vm_compute. reflexivity.
Defined.

Lemma SkipSpace_sign c inp :
  byteVal c = 43 \/ byteVal c = 45 -> SkipSpace 0 (c :: inp) = Some (c :: inp).
Proof.
  intros Hc. cbn [SkipSpace decodeRune].
  destruct Hc as [H|H]; rewrite H; reflexivity.
Qed.

Lemma Sscanf_d_signed ws c ds rest :
  Forall (fun c => isAsciiSpace c = true) ws ->
  byteVal c = 43 \/ byteVal c = 45 ->
  ds <> [] -> Forall (fun c => isDigit c = true) ds ->
  match rest with c :: _ => isDigit c = false | [] => True end ->
  Sscanf_d (string_of_list_ascii (ws ++ c :: ds ++ rest))
  = ParseInt (byteVal c =? 45) ds.
Proof.
  intros Hws Hc Hne Hds Hrest. unfold Sscanf_d.
  rewrite list_ascii_of_string_of_list_ascii, SkipSpace_spaces by done.
  rewrite !SkipSpace_sign by done.
  assert (Hsign : acceptSign (c :: ds ++ rest) = (byteVal c =? 45, ds ++ rest)).
  { unfold acceptSign. destruct Hc as [H|H]; rewrite H; reflexivity. }
  rewrite Hsign, acceptDigits_app by done. by destruct ds.
Qed.

(** X16. One sign is read with the number.  A plus sign changes nothing:
    the digits select as they would alone.  A minus sign makes the line
    invalid whatever the digits, since no contact has a number below
    one. *)
Theorem signed_selection ws c ds rest :
  Forall (fun c => isAsciiSpace c = true) ws ->
  byteVal c = 43 \/ byteVal c = 45 ->
  ds <> [] -> Forall (fun c => isDigit c = true) ds ->
  match rest with c :: _ => isDigit c = false | [] => True end ->
  (byteVal c = 43 ->
   Sscanf_d (string_of_list_ascii (ws ++ c :: ds ++ rest))
   = Sscanf_d (string_of_list_ascii (ds ++ rest))
   /\ respond (string_of_list_ascii (ws ++ c :: ds ++ rest))
      = respond (string_of_list_ascii (ds ++ rest)))
  /\ (byteVal c = 45 ->
      respond (string_of_list_ascii (ws ++ c :: ds ++ rest))
      = Continue [invalidMsg]).
Proof.
  intros Hws Hc Hne Hds Hrest.
  pose proof (Sscanf_d_signed ws c ds rest Hws Hc Hne Hds Hrest) as Hscan.
  pose proof (digitsValue_nonneg ds Hds) as Hpos.
  assert (Hfirst : exists c0 l, ws ++ c :: ds ++ rest = c0 :: l
            /\ (isAsciiSpace c0 = true \/ isDigit c0 = true
                \/ byteVal c0 = 43 \/ byteVal c0 = 45)).
  { destruct ws as [|c0 ws].
    - exists c, (ds ++ rest). split; [done|tauto].
    - inversion Hws; subst. exists c0, (ws ++ c :: ds ++ rest). by split; [|left]. }
  destruct Hfirst as (c0 & l & Hl & Hc0).
  destruct (leading_char_not_quit c0 Hc0) as [Hcq Hce].
  destruct (not_quit_word _ _ _ Hl Hcq Hce) as (Hq & Hquit & Hexit).
  split.
  - intros Hplus.
    assert (Heq : Sscanf_d (string_of_list_ascii (ws ++ c :: ds ++ rest))
                  = Sscanf_d (string_of_list_ascii (ds ++ rest))).
    { pose proof (Sscanf_d_prefix [] ds rest) as H. simpl in H.
      rewrite Hscan, Hplus, H by (done || constructor). done. }
    split; [done|].
    destruct ds as [|d ds]; [done|]. inversion Hds as [|? ? Hd _]; subst.
    destruct (leading_char_not_quit d) as [Hdq Hde]; [tauto|].
    destruct (not_quit_word ((d :: ds) ++ rest) d (ds ++ rest) eq_refl Hdq Hde)
      as (Hq' & Hquit' & Hexit').
    unfold respond. rewrite !bool_decide_eq_false_2 by done. by rewrite Heq.
  - intros Hminus. apply respond_invalid; try done.
    rewrite Hscan, Hminus. unfold ParseInt. simpl "=?".
    cbn [negb andb]. destruct (2 ^ 63 <? digitsValue ds); [done|]. lia.
Qed.

Lemma signed_selection_witness :
  respond " -3" = Continue [invalidMsg].
Proof.
  refine (proj2 (signed_selection (list_ascii_of_string " ") "-"%char
                   (list_ascii_of_string "3") [] _ _ _ _ _) _).
  - repeat constructor.
  - right. reflexivity.
  - discriminate.
  - repeat constructor.
  - exact I.
  - reflexivity.
Defined.

End SelectionFacts.

(** ** More on the process *)

Section ProcessFacts.

Import Session Server Trace.

Lemma exec_signal_history s0 ls s :
  exec s0 ls s -> s0 = init ->
  (sigPending s = true -> Signal ∈ ls)
  /\ (sigAt s <> Waiting -> Signal ∈ ls /\ CloseListener ∈ ls)
  /\ (sigAt s = Cancelled -> Cancel ∈ ls).
Proof.
  intros Hex Hs0. induction Hex as [s1|s1 ls s2 l s3 Hex IH Hstep].
  - subst. simpl. repeat split; done.
  - destruct (IH Hs0) as (Hpend & Hsig & Hcan). clear IH.
    setoid_rewrite elem_of_app. setoid_rewrite list_elem_of_singleton.
    destruct Hstep as [t Hrun|t Hrun Hw Hp|t Hrun Hc|t Hm
                      |t ip now w msg Hm Hl Hadm|t ip now w Hm Hl Hadm
                      |t Hm|t c tr ex Hm Hhc|t i Hm
                      |t i e tr w Hrun Hi Hperf|t now Hrun]; simpl in *.
    all: try (intuition (try congruence; try done); fail).
Qed.

(** X17. The process does not leave its accept loop of its own accord:
    in every execution in which [main] has reached the shutdown loop or
    returned, a signal has arrived, the listener has been closed and the
    context cancelled, and the listener stays closed. *)
Theorem exit_only_after_signal ls s :
  exec init ls s ->
  mainAt s = Exited \/ (exists i, mainAt s = Draining i) ->
  Signal ∈ ls /\ CloseListener ∈ ls /\ Cancel ∈ ls /\ AcceptError ∈ ls
  /\ listening s = false.
Proof.
  intros Hex Hmain.
  destruct (exec_shutdown _ _ _ Hex eq_refl) as (Hlis & Hctx & Hcl & Hm).
  destruct (exec_signal_history _ _ _ Hex eq_refl) as (_ & Hsig & Hcan).
  assert (Hc : ctxDone s = true).
  { destruct Hmain as [He|[i He]]; rewrite He in Hm; tauto. }
  specialize (Hctx Hc).
  destruct Hsig as [H1 H2]; [congruence|].
  split; [done|]. split; [done|]. split; [by auto|]. split.
  - clear -Hex Hmain.
    enough (mainAt s = AcceptLoop \/ mainAt s = SlotTaken \/ mainAt s = Counted
            \/ AcceptError ∈ ls) as H.
    { destruct Hmain as [He|[i He]]; rewrite He in H;
        intuition discriminate. }
    clear Hmain. remember init as s0 eqn:Hs0.
    induction Hex as [s1|s1 ls s2 l s3 Hex IH Hstep]; [subst; by left|].
    specialize (IH Hs0). rewrite elem_of_app, list_elem_of_singleton.
    destruct Hstep; simpl in *; try tauto.
    match goal with H : mainAt _ = Draining _ |- _ => rewrite H in IH end.
    destruct IH as [?|[?|[?|Hin]]]; try done. do 3 right. by left.
  - destruct (listening s); [|done].
    assert (sigAt s = Waiting) by (by apply Hlis). congruence.
Qed.

Lemma exit_only_after_signal_witness :
  let ls := [Signal; CloseListener; Cancel; AcceptError; Exit] in
  Signal ∈ ls /\ CloseListener ∈ ls /\ Cancel ∈ ls /\ AcceptError ∈ ls
  /\ false = false.
Proof.
  intros ls.
  set (w := mkWorld ∅ 0 0).
  set (s1 := mkSystem w true true false AcceptLoop Waiting []).
  set (s2 := mkSystem w false false false AcceptLoop ListenerClosed []).
  set (s3 := mkSystem w false false true AcceptLoop Cancelled []).
  set (s4 := mkSystem w false false true (Draining 0) Cancelled []).
  set (s5 := mkSystem w false false true Exited Cancelled []).
  apply (exit_only_after_signal ls s5); [|by left].
  apply (exec_snoc init [Signal; CloseListener; Cancel; AcceptError] s4 Exit s5);
    [|exact (step_drain s4 0 eq_refl)].
  apply (exec_snoc init [Signal; CloseListener; Cancel] s3 AcceptError s4);
    [|exact (step_accept_error s3 eq_refl)].
  apply (exec_snoc init [Signal; CloseListener] s2 Cancel s3);
    [|by apply (step_cancel s2)].
  apply (exec_snoc init [Signal] s1 CloseListener s2);
    [|by apply (step_close s1)].
  apply (exec_snoc init [] init Signal s1); [apply exec_nil|].
  by apply (step_signal init).
Defined.

Lemma count_snoc (f : label -> bool) ls l :
  length (filter (fun l => f l = true) (ls ++ [l]))
  = length (filter (fun l => f l = true) ls) + (if f l then 1 else 0).
Proof.
  rewrite filter_app, length_app. f_equal.
  rewrite filter_cons, filter_nil. destruct (f l); by case_decide.
Qed.

(** X18. Sessions are started for acquired slots and for nothing else:
    along every execution the sessions started, together with the
    connection the main goroutine may hold between the acquisition and
    the [go] statement, are as many as the acquisitions; a rejected
    connection never becomes a session. *)
Theorem sessions_match_acquisitions ls s :
  exec init ls s ->
  spawns ls + inHand (mainAt s) = acquisitions ls
  /\ length (sessions s) = spawns ls.
Proof.
  intros Hex. remember init as s0 eqn:Hs0.
  induction Hex as [s1|s1 ls s2 l s3 Hex IH Hstep]; [by subst|].
  destruct (IH Hs0) as [Hacq Hlen]. clear IH.
  unfold spawns, acquisitions in *. rewrite !count_snoc.
  destruct Hstep as [t Hrun|t Hrun Hw Hp|t Hrun Hc|t Hm
                    |t ip now w msg Hm Hl Hadm|t ip now w Hm Hl Hadm
                    |t Hm|t c tr ex Hm Hhc|t i Hm
                    |t i e tr w Hrun Hi Hperf|t now Hrun]; simpl in *;
    try rewrite Hm in Hacq; simpl in *;
    rewrite ?length_app, ?length_insert; simpl;
    try (destruct (ctxDone t)); simpl; try lia.
  all: unfold drain; repeat case_bool_decide; simpl; lia.
Qed.




Lemma sample_run :
  let ip := "203.0.113.9" in
  let c := Bufio.mkConn [] Bufio.DeadlineExceeded in
  let w1 := (dispatch ip 0 (world init)).1 in
  exec init
    [Acquire ip 0; Signal; CloseListener; Cancel; Count; Spawn c]
    (mkSystem (countUp w1) false false true AcceptLoop Cancelled
              [map Write greeting ++ deferred]).
Proof.
  intros ip c w1.
  set (tr := map Write greeting ++ deferred).
  set (s1 := mkSystem w1 true false false SlotTaken Waiting []).
  set (s2 := mkSystem w1 true true false SlotTaken Waiting []).
  set (s3 := mkSystem w1 false false false SlotTaken ListenerClosed []).
  set (s4 := mkSystem w1 false false true SlotTaken Cancelled []).
  set (s5 := mkSystem (countUp w1) false false true Counted Cancelled []).
  apply (exec_snoc init [Acquire ip 0; Signal; CloseListener; Cancel; Count]
                   s5 (Spawn c));
    [|exact (step_spawn s5 c tr (ByReadFailure
               (Some (Bufio.ErrIO Bufio.DeadlineExceeded))) eq_refl eq_refl)].
  apply (exec_snoc init [Acquire ip 0; Signal; CloseListener; Cancel]
                   s4 Count s5); [|exact (step_count s4 eq_refl)].
  apply (exec_snoc init [Acquire ip 0; Signal; CloseListener]
                   s3 Cancel s4); [|by apply (step_cancel s3)].
  apply (exec_snoc init [Acquire ip 0; Signal] s2 CloseListener s3);
    [|by apply (step_close s2)].
  apply (exec_snoc init [Acquire ip 0] s1 Signal s2);
    [|by apply (step_signal s1)].
  apply (exec_snoc init [] init (Acquire ip 0) s1); [apply exec_nil|].
  by apply (step_acquire init ip 0 w1).
Qed.

Lemma sessions_match_acquisitions_witness :
  spawns [Acquire "203.0.113.9" 0; Signal; CloseListener; Cancel; Count;
          Spawn (Bufio.mkConn [] Bufio.DeadlineExceeded)] + 0
  = acquisitions [Acquire "203.0.113.9" 0; Signal; CloseListener; Cancel;
                  Count; Spawn (Bufio.mkConn [] Bufio.DeadlineExceeded)].
Proof.
  exact (proj1 (sessions_match_acquisitions _ _ sample_run)).
Defined.







End ProcessFacts.
